(** * Device rate limiter (backend/app/rate_limiter.py)

    A shallow embedding of [DeviceRateLimiter] and of the Python string
    and hashing primitives it calls, followed by the properties of the
    session registry, the sliding-window counter and the device
    fingerprint.

    Conventions.
    - A Python [str] is a [string] whose characters are the code points
      0..255 (HTTP header values are Latin-1 decoded, addresses are ASCII).
    - A Python [dict] is a [gmap]; no property below depends on the
      insertion order of a dict.
    - A [datetime] is an integer number of microseconds, a [timedelta] is
      their difference and [total_seconds] is the rational number of
      seconds.  [time.time()] is a rational number of seconds.
    - Every clock reading is an argument of the operation that takes it. *)

From Stdlib Require Import ZArith QArith Lqa String Ascii List Lia DecimalString.
From stdpp Require Import base option list gmap strings.

Local Open Scope string_scope.

(** ** Python [str] methods used by the module *)

Module PyStr.

(** [str.isspace] for one code point below 256. *)
Definition isspace (c : ascii) : bool :=
  let n := N_of_ascii c in
  ((9 <=? n) && (n <=? 13) || (28 <=? n) && (n <=? 32)
   || (n =? 133) || (n =? 160))%N.

Fixpoint lstrip (s : string) : string :=
  match s with
  | EmptyString => EmptyString
  | String c s' => if isspace c then lstrip s' else s
  end.

(** [rstrip] as a right-to-left scan: a whitespace character is dropped
    when everything after it has been dropped. *)
Fixpoint rstrip (s : string) : string :=
  match s with
  | EmptyString => EmptyString
  | String c s' =>
      match rstrip s' with
      | EmptyString => if isspace c then EmptyString else String c EmptyString
      | r => String c r
      end
  end.

(** [s.strip()] *)
Definition strip (s : string) : string := rstrip (lstrip s).

(** [str.lower] on one code point below 256: A-Z and the Latin-1
    capitals 0xC0-0xDE (except the multiplication sign 0xD7). *)
Definition lower_char (c : ascii) : ascii :=
  let n := N_of_ascii c in
  if ((65 <=? n) && (n <=? 90)
      || (192 <=? n) && (n <=? 222) && negb (n =? 215))%N
  then ascii_of_N (n + 32) else c.

Fixpoint lower (s : string) : string :=
  match s with
  | EmptyString => EmptyString
  | String c s' => String (lower_char c) (lower s')
  end.

(** [s.split(sep)] for a one-character separator: never the empty list. *)
Fixpoint split (sep : ascii) (s : string) : list string :=
  match s with
  | EmptyString => [EmptyString]
  | String c s' =>
      if Ascii.eqb c sep then EmptyString :: split sep s'
      else match split sep s' with
           | p :: ps => String c p :: ps
           | [] => [String c EmptyString]
           end
  end.

(** [sep.join(parts)] *)
Fixpoint join (sep : string) (parts : list string) : string :=
  match parts with
  | [] => EmptyString
  | [p] => p
  | p :: ps => p ++ sep ++ join sep ps
  end.

(** [s[:n]] *)
Fixpoint prefix (n : nat) (s : string) : string :=
  match n, s with
  | S n', String c s' => String c (prefix n' s')
  | _, _ => EmptyString
  end.

(** [s.encode()]: UTF-8 of code points below 256. *)
Fixpoint encode (s : string) : list Z :=
  match s with
  | EmptyString => []
  | String c s' =>
      let n := Z.of_N (N_of_ascii c) in
      if (n <? 128)%Z then n :: encode s'
      else Z.lor 192 (Z.shiftr n 6) :: Z.lor 128 (Z.land n 63) :: encode s'
  end.

(** Truthiness of a [str]. *)
Definition truthy (s : string) : bool :=
  match s with EmptyString => false | _ => true end.

End PyStr.

(** ** [hashlib.sha256] (FIPS 180-4) on a list of bytes *)

Module SHA256.
Local Open Scope Z_scope.

Definition wrap (x : Z) : Z := x mod 2 ^ 32.
Definition add32 (x y : Z) : Z := wrap (x + y).
Definition rotr (n x : Z) : Z :=
  Z.lor (Z.shiftr x n) (wrap (Z.shiftl x (32 - n))).
Definition not32 (x : Z) : Z := 2 ^ 32 - 1 - x.

Definition Ch (x y z : Z) : Z := Z.lxor (Z.land x y) (Z.land (not32 x) z).
Definition Maj (x y z : Z) : Z :=
  Z.lxor (Z.lxor (Z.land x y) (Z.land x z)) (Z.land y z).
Definition Sigma0 (x : Z) : Z :=
  Z.lxor (Z.lxor (rotr 2 x) (rotr 13 x)) (rotr 22 x).
Definition Sigma1 (x : Z) : Z :=
  Z.lxor (Z.lxor (rotr 6 x) (rotr 11 x)) (rotr 25 x).
Definition sigma0 (x : Z) : Z :=
  Z.lxor (Z.lxor (rotr 7 x) (rotr 18 x)) (Z.shiftr x 3).
Definition sigma1 (x : Z) : Z :=
  Z.lxor (Z.lxor (rotr 17 x) (rotr 19 x)) (Z.shiftr x 10).

(** The first [n] prime numbers, by trial division. *)
Definition is_prime (p : nat) : bool :=
  forallb (fun d => negb (Nat.eqb (Nat.modulo p d) 0)) (seq 2 (p - 2)).

Definition primes (n : nat) : list Z :=
  List.map Z.of_nat (firstn n (List.filter is_prime (seq 2 310))).

(** Integer cube root, one bit at a time from bit [bits - 1] down. *)
Fixpoint cbrt_bits (bits : nat) (n r : Z) : Z :=
  match bits with
  | O => r
  | S b =>
      let r' := r + 2 ^ Z.of_nat b in
      cbrt_bits b n (if r' * r' * r' <=? n then r' else r)
  end.

(** The first 32 bits of the fractional part of a cube root and of a
    square root. *)
Definition frac_cbrt (p : Z) : Z := wrap (cbrt_bits 40 (p * 2 ^ 96) 0).
Definition frac_sqrt (p : Z) : Z := wrap (Z.sqrt (p * 2 ^ 64)).

(** The round constants: cube roots of the first 64 primes. *)
Definition K : list Z := Eval vm_compute in List.map frac_cbrt (primes 64).

(** The eight working variables, and the chaining value. *)
Record regs := Regs { ra : Z; rb : Z; rc : Z; rd : Z;
                      re : Z; rf : Z; rg : Z; rh : Z }.

(** The initial chaining value: square roots of the first 8 primes. *)
Definition H0 : regs :=
  Eval vm_compute in
    match List.map frac_sqrt (primes 8) with
    | [a; b; c; d; e; f; g; h] => Regs a b c d e f g h
    | _ => Regs 0 0 0 0 0 0 0 0
    end.

(** Padding: 0x80, zeros up to 56 mod 64, the bit length on 8 bytes. *)
Definition be_bytes (n : nat) (x : Z) : list Z :=
  List.map (fun i => Z.land (Z.shiftr x (8 * Z.of_nat i)) 255) (List.rev (seq 0 n)).

Definition pad (msg : list Z) : list Z :=
  let len := Z.of_nat (length msg) in
  let zeros := Z.to_nat ((55 - len) mod 64) in
  msg ++ 128 :: List.repeat 0 zeros ++ be_bytes 8 (8 * len).

(** Big-endian 32-bit words of a byte list. *)
Fixpoint words (bs : list Z) : list Z :=
  match bs with
  | b0 :: b1 :: b2 :: b3 :: rest =>
      (((b0 * 256 + b1) * 256 + b2) * 256 + b3) :: words rest
  | _ => []
  end.

Fixpoint chunks16 (fuel : nat) (ws : list Z) : list (list Z) :=
  match fuel, ws with
  | S fuel', _ :: _ => firstn 16 ws :: chunks16 fuel' (skipn 16 ws)
  | _, _ => []
  end.

(** Message schedule: [w] holds W[t-1], ..., W[0] (latest first). *)
Definition schedule_step (w : list Z) : list Z :=
  let g i := nth i w 0 in
  add32 (add32 (sigma1 (g 1%nat)) (g 6%nat))
        (add32 (sigma0 (g 14%nat)) (g 15%nat)) :: w.

Definition schedule (block : list Z) : list Z :=
  List.rev (Nat.iter 48 schedule_step (List.rev block)).

Definition round (s : regs) (kw : Z * Z) : regs :=
  let t1 := add32 (add32 (add32 (rh s) (Sigma1 (re s)))
                         (add32 (Ch (re s) (rf s) (rg s)) (fst kw))) (snd kw) in
  let t2 := add32 (Sigma0 (ra s)) (Maj (ra s) (rb s) (rc s)) in
  Regs (add32 t1 t2) (ra s) (rb s) (rc s) (add32 (rd s) t1) (re s) (rf s) (rg s).

Definition compress (h : regs) (block : list Z) : regs :=
  let s := fold_left round (combine K (schedule block)) h in
  Regs (add32 (ra h) (ra s)) (add32 (rb h) (rb s))
       (add32 (rc h) (rc s)) (add32 (rd h) (rd s))
       (add32 (re h) (re s)) (add32 (rf h) (rf s))
       (add32 (rg h) (rg s)) (add32 (rh h) (rh s)).

Definition digest (msg : list Z) : regs :=
  let ws := words (pad msg) in
  fold_left compress (chunks16 (length ws) ws) H0.

(** [hexdigest]: eight lowercase hexadecimal digits per word. *)
Definition hex_digit (d : Z) : ascii :=
  nth (Z.to_nat (d mod 16))
      ["0"; "1"; "2"; "3"; "4"; "5"; "6"; "7";
       "8"; "9"; "a"; "b"; "c"; "d"; "e"; "f"]%char "0"%char.

Definition hex_word (w : Z) : string :=
  string_of_list_ascii
    (List.map (fun i => hex_digit (Z.shiftr w (4 * Z.of_nat i)))
              (List.rev (seq 0 8))).

Definition hexdigest (msg : list Z) : string :=
  let h := digest msg in
  (hex_word (ra h) ++ hex_word (rb h) ++ hex_word (rc h) ++ hex_word (rd h)
   ++ hex_word (re h) ++ hex_word (rf h) ++ hex_word (rg h) ++ hex_word (rh h))%string.

End SHA256.

(** ** The module [rate_limiter] *)

Module RateLimiter.

(** *** Configuration *)

Definition MAX_SESSIONS_PER_DEVICE : Z := 8.
Definition SESSION_CLEANUP_INTERVAL : Z := 300.
Definition MAX_HTTP_REQUESTS_PER_MINUTE : Z := 60.

(** *** Clocks *)

(** [timedelta.total_seconds()] of a difference of two [datetime]s. *)
Definition total_seconds (microseconds : Z) : Q := microseconds # 1000000.

(** [x > y] on rational numbers. *)
Definition Qgtb (x y : Q) : bool := negb (Qle_bool x y).

(** *** Data *)

(** [SessionInfo]: both timestamps default to a reading of
    [datetime.now], one reading per field. *)
Record SessionInfo := mkSessionInfo {
  session_id : string;
  user_id : string;
  created_at : Z;
  last_activity : Z
}.

(** The instance state of [DeviceRateLimiter]: [_active_sessions] maps
    a device to its sessions by session id, [_http_requests] maps a
    device to the timestamps of its requests.  [_lock_placeholder] is
    [None] for the life of the object and is not represented. *)
Record DeviceRateLimiter := mkLimiter {
  max_sessions : Z;
  _active_sessions : gmap string (gmap string SessionInfo);
  _http_requests : gmap string (list Q)
}.

Definition set_active_sessions (m : gmap string (gmap string SessionInfo))
    (self : DeviceRateLimiter) : DeviceRateLimiter :=
  mkLimiter (max_sessions self) m (_http_requests self).

Definition set_http_requests (m : gmap string (list Q))
    (self : DeviceRateLimiter) : DeviceRateLimiter :=
  mkLimiter (max_sessions self) (_active_sessions self) m.

(** [__init__] *)
Definition init (max_sessions : Z) : DeviceRateLimiter :=
  mkLimiter max_sessions ∅ ∅.

(** The global instance [rate_limiter]. *)
Definition rate_limiter : DeviceRateLimiter := init MAX_SESSIONS_PER_DEVICE.

(** [d[k]] on a [defaultdict]: a missing key is inserted with the
    default value, which is returned. *)
Definition dd_getitem {V} (dflt : V) (k : string) (d : gmap string V)
    : V * gmap string V :=
  match d !! k with
  | Some v => (v, d)
  | None => (dflt, <[k := dflt]> d)
  end.

(** [list(d.keys())] *)
Definition keys {V} (d : gmap string V) : list string := (map_to_list d).*1.

(** A [for] loop over a list whose body may raise ([None]). *)
Fixpoint for_each {S A} (body : S -> A -> option S) (s : S) (l : list A)
    : option S :=
  match l with
  | [] => Some s
  | x :: l' => s' ← body s x; for_each body s' l'
  end.

(** *** Fingerprinting *)

Record Address := mkAddress { host : string; port : Z }.

(** [x or d] for an optional string [x]. *)
Definition or_else (x : option string) (d : string) : string :=
  match x with
  | Some (String _ _ as s) => s
  | _ => d
  end.

Definition _generate_device_fingerprint
    (client_ip : string) (user_agent : option string)
    (custom_id : option string) : string :=
  let ip_normalized := PyStr.lower (PyStr.strip client_ip) in
  let ua_normalized := PyStr.strip (or_else user_agent "unknown") in
  let components := [ip_normalized; ua_normalized] in
  let components :=
    match custom_id with
    | Some (String _ _ as c) => (components ++ [c])%list
    | _ => components
    end in
  let composite := PyStr.join "|" components in
  PyStr.prefix 32 (SHA256.hexdigest (PyStr.encode composite)).

(** [headers] maps a lowercase header name to the value that
    [headers.get] returns for it. *)
Definition _get_client_ip (headers : gmap string string)
    (client : option Address) : string :=
  match headers !! "x-forwarded-for" with
  | Some (String _ _ as forwarded) =>
      PyStr.strip (nth 0 (PyStr.split "," forwarded) "")
  | _ =>
      match headers !! "x-real-ip" with
      | Some (String _ _ as real_ip) => PyStr.strip real_ip
      | _ =>
          match client with
          | Some c => host c
          | None => "unknown"
          end
      end
  end.

(** [get_device_id_from_websocket] and [get_device_id_from_request] have
    the same body. *)
Definition get_device_id_from_request (headers : gmap string string)
    (client : option Address) : string :=
  let client_ip := _get_client_ip headers client in
  let user_agent := default "unknown" (headers !! "user-agent") in
  _generate_device_fingerprint client_ip (Some user_agent) None.

Definition get_device_id_from_websocket := get_device_id_from_request.

(** *** Session registry *)

Definition get_active_session_count (self : DeviceRateLimiter)
    (device_id : string) : nat :=
  size (default ∅ (_active_sessions self !! device_id)).

Definition can_create_session (self : DeviceRateLimiter)
    (device_id : string) : bool :=
  let current_count := get_active_session_count self device_id in
  (Z.of_nat current_count <? max_sessions self)%Z.

(** [t_created] and [t_activity] are the two readings of [datetime.now]
    made by the [SessionInfo] constructor. *)
Definition register_session (self : DeviceRateLimiter)
    (device_id session_id user_id : string) (t_created t_activity : Z)
    : DeviceRateLimiter * bool :=
  if negb (can_create_session self device_id) then (self, false)
  else
    let info := mkSessionInfo session_id user_id t_created t_activity in
    let '(sessions, d) := dd_getitem ∅ device_id (_active_sessions self) in
    (set_active_sessions (<[device_id := <[session_id := info]> sessions]> d) self,
     true).

Definition unregister_session (self : DeviceRateLimiter)
    (device_id session_id : string) : DeviceRateLimiter * bool :=
  match _active_sessions self !! device_id with
  | Some sessions =>
      match sessions !! session_id with
      | Some _ =>
          let sessions' := delete session_id sessions in
          let d := <[device_id := sessions']> (_active_sessions self) in
          let d := if (size sessions' =? 0)%nat then delete device_id d else d in
          (set_active_sessions d self, true)
      | None => (self, false)
      end
  | None => (self, false)
  end.

(** *** Sliding window *)

Definition check_http_rate_limit_with (capacity : Z)
    (self : DeviceRateLimiter) (device_id : string) (now : Q)
    : DeviceRateLimiter * bool :=
  let window_start := (now - 60)%Q in
  let '(requests, d) := dd_getitem [] device_id (_http_requests self) in
  let requests := List.filter (fun ts => Qgtb ts window_start) requests in
  let d := <[device_id := requests]> d in
  if (Z.of_nat (length requests) >=? capacity)%Z
  then (set_http_requests d self, false)
  else (set_http_requests (<[device_id := (requests ++ [now])%list]> d) self, true).

Definition check_http_rate_limit :=
  check_http_rate_limit_with MAX_HTTP_REQUESTS_PER_MINUTE.

(** *** Idle reclamation *)

Definition is_stale (now max_idle_seconds : Z) (session : SessionInfo) : bool :=
  let idle_time := total_seconds (now - last_activity session) in
  Qgtb idle_time (inject_Z max_idle_seconds).

(** Body of the inner loop; [None] is a [KeyError]. *)
Definition cleanup_session (now max_idle_seconds : Z) (device_id : string)
    (acc : gmap string (gmap string SessionInfo) * nat) (session_id : string)
    : option (gmap string (gmap string SessionInfo) * nat) :=
  let '(sessions, d) := dd_getitem ∅ device_id acc.1 in
  session ← sessions !! session_id;
  if is_stale now max_idle_seconds session
  then Some (<[device_id := delete session_id sessions]> d, S acc.2)
  else Some (d, acc.2).

(** Body of the outer loop. *)
Definition cleanup_device (now max_idle_seconds : Z)
    (acc : gmap string (gmap string SessionInfo) * nat) (device_id : string)
    : option (gmap string (gmap string SessionInfo) * nat) :=
  let '(sessions, d) := dd_getitem ∅ device_id acc.1 in
  acc' ← for_each (cleanup_session now max_idle_seconds device_id)
                  (d, acc.2) (keys sessions);
  let '(sessions', d') := dd_getitem ∅ device_id acc'.1 in
  if (size sessions' =? 0)%nat
  then Some (delete device_id d', acc'.2)
  else Some (d', acc'.2).

Definition cleanup_stale_sessions (self : DeviceRateLimiter)
    (max_idle_seconds : Z) (now : Z) : option (DeviceRateLimiter * nat) :=
  acc ← for_each (cleanup_device now max_idle_seconds)
                 (_active_sessions self, 0%nat) (keys (_active_sessions self));
  Some (set_active_sessions acc.1 self, acc.2).

(** *** Statistics *)

Record Stats := mkStats {
  total_devices : nat;
  total_sessions : nat;
  max_sessions_per_device : Z
}.

Definition get_stats (self : DeviceRateLimiter) : Stats :=
  mkStats (size (_active_sessions self))
          (sum_list (size <$> (map_to_list (_active_sessions self)).*2))
          (max_sessions self).

(** *** Responses *)

(** [str(n)] for an [int], as an f-string formats it. *)
Definition str_of_int (n : Z) : string := NilZero.string_of_int (Z.to_int n).

(** The [content] of the response of [get_rate_limit_error_response],
    one field per key. *)
Record RateLimitContent := mkRateLimitContent {
  content_error : string;
  content_message : string;
  content_current_sessions : nat;
  content_max_sessions : Z;
  content_retry_after : string
}.

Record JSONResponse := mkJSONResponse {
  status_code : Z;
  content : RateLimitContent
}.

Definition get_rate_limit_error_response (self : DeviceRateLimiter)
    (device_id : string) : JSONResponse :=
  let current_count := get_active_session_count self device_id in
  mkJSONResponse 429
    (mkRateLimitContent
       "rate_limit_exceeded"
       ("Maximum sessions (" ++ str_of_int (max_sessions self)
        ++ ") reached for this device")
       current_count
       (max_sessions self)
       "Close an existing session to continue").

(** *** The FastAPI dependency *)

(** What [check_session_limit] reads of a [WebSocket]. *)
Record WebSocket := mkWebSocket {
  ws_headers : gmap string string;
  ws_client : option Address
}.

(** The [detail] of the [HTTPException], one field per key. *)
Record LimitDetail := mkLimitDetail {
  detail_error : string;
  detail_message : string;
  detail_current : nat
}.

Record HTTPException := mkHTTPException {
  exc_status_code : Z;
  exc_detail : LimitDetail
}.

(** [check_session_limit]: [limiter] is the current state of the global
    [rate_limiter]; the result is the raised exception or the returned
    device id. *)
Definition check_session_limit (limiter : DeviceRateLimiter)
    (websocket : WebSocket) : HTTPException + string :=
  let device_id :=
    get_device_id_from_websocket (ws_headers websocket) (ws_client websocket) in
  if negb (can_create_session limiter device_id)
  then inl (mkHTTPException 429
              (mkLimitDetail
                 "session_limit_exceeded"
                 ("Maximum " ++ str_of_int MAX_SESSIONS_PER_DEVICE
                  ++ " sessions per device")
                 (get_active_session_count limiter device_id)))
  else inr device_id.

(** *** Calls and runs *)

Inductive call :=
| RegisterSession (device_id session_id user_id : string) (t_created t_activity : Z)
| UnregisterSession (device_id session_id : string)
| CheckHttpRateLimit (device_id : string) (now : Q)
| CleanupStaleSessions (max_idle_seconds : Z) (now : Z).

(** The state after one call ([None]: the call raised). *)
Definition exec (self : DeviceRateLimiter) (c : call) : option DeviceRateLimiter :=
  match c with
  | RegisterSession d s u tc ta => Some (register_session self d s u tc ta).1
  | UnregisterSession d s => Some (unregister_session self d s).1
  | CheckHttpRateLimit d now => Some (check_http_rate_limit self d now).1
  | CleanupStaleSessions idle now => fst <$> cleanup_stale_sessions self idle now
  end.

Definition run (self : DeviceRateLimiter) (cs : list call)
    : option DeviceRateLimiter :=
  for_each exec self cs.

End RateLimiter.

(** ** The derivation of a device key, as the specification words it *)

Module Reference.

(** Drop the longest prefix of characters satisfying [p]. *)
Fixpoint drop_while (p : ascii -> bool) (l : list ascii) : list ascii :=
  match l with
  | [] => []
  | c :: l' => if p c then drop_while p l' else l
  end.

(** Trim: remove the whitespace at both ends. *)
Definition trim (s : string) : string :=
  let l := drop_while PyStr.isspace (list_ascii_of_string s) in
  string_of_list_ascii
    (List.rev (drop_while PyStr.isspace (List.rev l))).

(** The first 128 bits of the digest, as 32 hexadecimal characters. *)
Definition hex_prefix (h : SHA256.regs) : string :=
  SHA256.hex_word (SHA256.ra h) ++ SHA256.hex_word (SHA256.rb h)
  ++ SHA256.hex_word (SHA256.rc h) ++ SHA256.hex_word (SHA256.rd h).

(** The derivation of a device key as the specification words it: an
    agent or custom identifier that is absent or empty counts as absent. *)
Definition derive (address : string) (agent custom : option string) : string :=
  let address := PyStr.lower (trim address) in
  let agent :=
    match agent with
    | None | Some EmptyString => "unknown"
    | Some a => trim a
    end in
  let tail :=
    match custom with
    | None | Some EmptyString => ""
    | Some c => "|" ++ c
    end in
  hex_prefix (SHA256.digest (PyStr.encode (address ++ "|" ++ agent ++ tail))).

Definition is_hex (c : ascii) : Prop :=
  In c ["0"; "1"; "2"; "3"; "4"; "5"; "6"; "7";
        "8"; "9"; "a"; "b"; "c"; "d"; "e"; "f"]%char.

End Reference.

(** ** Notions used to state the properties *)

Import RateLimiter.

(** The record stored for a session of a device, if any. *)
Definition lookup_session (self : DeviceRateLimiter) (device_id session_id : string)
    : option SessionInfo :=
  _active_sessions self !! device_id ≫= (.!! session_id).

(** No device is stored with an empty set of sessions. *)
Definition no_empty_entries (self : DeviceRateLimiter) : Prop :=
  ∀ device_id, _active_sessions self !! device_id ≠ Some ∅.

(** The sessions of a device that a sweep keeps. *)
Definition kept_sessions (now max_idle_seconds : Z)
    (sessions : gmap string SessionInfo) : gmap string SessionInfo :=
  filter (λ kv, is_stale now max_idle_seconds kv.2 = false) sessions.

(** What a sweep leaves of one device entry: nothing when no session is kept. *)
Definition sweep_entry (now max_idle_seconds : Z)
    (sessions : gmap string SessionInfo) : option (gmap string SessionInfo) :=
  let kept := kept_sessions now max_idle_seconds sessions in
  if (size kept =? 0)%nat then None else Some kept.

(** Number of session records in a registry. *)
Definition session_total (d : gmap string (gmap string SessionInfo)) : nat :=
  sum_list (size <$> (map_to_list d).*2).

(** No device holds more sessions than the configured maximum. *)
Definition within_cap (self : DeviceRateLimiter) : Prop :=
  ∀ device_id,
    (Z.of_nat (get_active_session_count self device_id) <= max_sessions self)%Z.

(** States reached from a fresh instance by some sequence of calls. *)
Definition reachable (cap : Z) (self : DeviceRateLimiter) : Prop :=
  ∃ cs, run (init cap) cs = Some self.

(** The records that the registrations of a run write. *)
Definition written_by (cs : list call) (d s : string) (r : SessionInfo) : Prop :=
  ∃ u tc ta, RegisterSession d s u tc ta ∈ cs ∧ r = mkSessionInfo s u tc ta.

(** Successive [check_http_rate_limit] calls of one device, one per clock
    reading, with their results. *)
Fixpoint check_many (capacity : Z) (self : DeviceRateLimiter) (device_id : string)
    (times : list Q) : DeviceRateLimiter * list bool :=
  match times with
  | [] => (self, [])
  | now :: times' =>
      let r := check_http_rate_limit_with capacity self device_id now in
      let rs := check_many capacity r.1 device_id times' in
      (rs.1, r.2 :: rs.2)
  end.

(** The timestamps of a device that are inside the window ending at [now]. *)
Definition in_window (now : Q) (requests : list Q) : list Q :=
  List.filter (λ ts, Qgtb ts (now - 60)) requests.

(** A header is unusable when it is missing or empty. *)
Definition unusable (h : option string) : Prop := h = None ∨ h = Some "".

(** The devices that the limiter stores something for. *)
Definition devices (self : DeviceRateLimiter) : gset string :=
  dom (_active_sessions self) ∪ dom (_http_requests self).

(** Number of stored request timestamps. *)
Definition request_total (h : gmap string (list Q)) : nat :=
  sum_list (length <$> (map_to_list h).*2).

(** Number of stored session records and request timestamps. *)
Definition stored_size (self : DeviceRateLimiter) : nat :=
  session_total (_active_sessions self) + request_total (_http_requests self).

(** The device that a call names, when the call is made after [t0]:
    a registration and a rate-limit check read the clock, a release does
    not and is counted whatever [t0] is, a sweep names no device. *)
Definition seen_after (t0 : Q) (c : call) : list string :=
  match c with
  | RegisterSession d _ _ _ ta => if Qgtb (total_seconds ta) t0 then [d] else []
  | UnregisterSession d _ => [d]
  | CheckHttpRateLimit d now => if Qgtb now t0 then [d] else []
  | CleanupStaleSessions _ _ => []
  end.

Definition devices_seen_after (t0 : Q) (cs : list call) : gset string :=
  list_to_set (cs ≫= seen_after t0).

(** No device has more request timestamps than the limit per minute. *)
Definition within_request_limit (self : DeviceRateLimiter) : Prop :=
  ∀ d l, _http_requests self !! d = Some l ->
         (Z.of_nat (length l) <= MAX_HTTP_REQUESTS_PER_MINUTE)%Z.

(** The source takes no lock: [_lock_placeholder] stays [None].  Each
    method is a synchronous function, so calls that do not overlap are
    calls made one after the other, in some order. *)
Fixpoint register_many (self : DeviceRateLimiter) (device_id : string)
    (requests : list (string * string * Z * Z)) : DeviceRateLimiter * list bool :=
  match requests with
  | [] => (self, [])
  | (session_id, user_id, t_created, t_activity) :: requests' =>
      let r := register_session self device_id session_id user_id t_created t_activity in
      let rs := register_many r.1 device_id requests' in
      (rs.1, r.2 :: rs.2)
  end.

(** The sessions that a device can still take. *)
Definition free_slots (self : DeviceRateLimiter) (device_id : string) : nat :=
  Z.to_nat (max_sessions self - Z.of_nat (get_active_session_count self device_id)).

(** The clock readings of the calls that were admitted. *)
Fixpoint admitted (times : list Q) (results : list bool) : list Q :=
  match times, results with
  | t :: times', true :: results' => t :: admitted times' results'
  | _ :: times', false :: results' => admitted times' results'
  | _, _ => []
  end.

(** The readings of a list that fall in the window (t - 60, t]. *)
Definition within_window (t : Q) (l : list Q) : list Q :=
  List.filter (λ a, Qgtb a (t - 60) && Qle_bool a t) l.

(** Clock readings that never go back. *)
Fixpoint nondecreasing (times : list Q) : Prop :=
  match times with
  | t1 :: times' =>
      match times' with
      | t2 :: _ => (t1 <= t2)%Q ∧ nondecreasing times'
      | [] => True
      end
  | [] => True
  end.

(** What one rate-limit check makes of the stored timestamps of its
    device: the new list and the answer. *)
Definition window_step (capacity : Z) (now : Q) (requests : list Q) : list Q * bool :=
  let kept := in_window now requests in
  if (Z.of_nat (length kept) >=? capacity)%Z then (kept, false)
  else ((kept ++ [now])%list, true).

(** * Properties *)

(** ** The digest on the test vectors of the standard *)

Example sha256_abc :
  SHA256.hexdigest (PyStr.encode "abc")
  = "ba7816bf8f01cfea414140de5dae2223b00361a396177a9cb410ff61f20015ad".
Proof. vm_compute. reflexivity. Qed.

Example sha256_empty :
  SHA256.hexdigest []
  = "e3b0c44298fc1c149afbf4c8996fb92427ae41e4649b934ca495991b7852b855".
Proof. vm_compute. reflexivity. Qed.

(** ** Dictionaries *)

Lemma for_each_cons {S A} (body : S -> A -> option S) s x l :
  for_each body s (x :: l) = body s x ≫= λ s', for_each body s' l.
Proof. done. Qed.

Lemma for_each_app {S A} (body : S -> A -> option S) s l1 l2 :
  for_each body s (l1 ++ l2) = for_each body s l1 ≫= λ s', for_each body s' l2.
Proof.
  revert s. induction l1 as [|x l1 IH]; intros s; [done|].
  simpl. destruct (body s x); simpl; [apply IH|done].
Qed.

Lemma if_decide_cons_ne {B} (x y : string) (l : list string) (a b : B) :
  x ≠ y ->
  (if decide (x ∈ y :: l) then a else b) = (if decide (x ∈ l) then a else b).
Proof.
  intros Hne. destruct (decide (x ∈ l)) as [Hin|Hin].
  - rewrite decide_True; [done|]. by apply list_elem_of_further.
  - rewrite decide_False; [done|]. rewrite elem_of_cons. tauto.
Qed.

Section dict_facts.
Context {V : Type}.
Implicit Types (d : gmap string V) (k : string).

Lemma dd_getitem_Some dflt k d v :
  d !! k = Some v -> dd_getitem dflt k d = (v, d).
Proof. unfold dd_getitem. by intros ->. Qed.

Lemma dd_getitem_None dflt k d :
  d !! k = None -> dd_getitem dflt k d = (dflt, <[k := dflt]> d).
Proof. unfold dd_getitem. by intros ->. Qed.

Lemma dd_getitem_lookup dflt k d :
  (dd_getitem dflt k d).2 !! k = Some (dd_getitem dflt k d).1.
Proof.
  unfold dd_getitem. destruct (d !! k) eqn:E; simpl; [done|].
  apply lookup_insert_eq.
Qed.

Lemma dd_getitem_fst dflt k d :
  (dd_getitem dflt k d).1 = default dflt (d !! k).
Proof. unfold dd_getitem. by destruct (d !! k). Qed.

Lemma dd_getitem_insert dflt k d v :
  <[k := v]> (dd_getitem dflt k d).2 = <[k := v]> d.
Proof.
  unfold dd_getitem. destruct (d !! k); simpl; [done|].
  apply insert_insert_eq.
Qed.

Lemma elem_of_keys k d : k ∈ keys d <-> is_Some (d !! k).
Proof.
  unfold keys. rewrite list_elem_of_fmap. split.
  - intros [[k' v] [-> Hin]]. apply elem_of_map_to_list in Hin. eauto.
  - intros [v Hv]. exists (k, v). split; [done|].
    by apply elem_of_map_to_list.
Qed.

Lemma NoDup_keys d : NoDup (keys d).
Proof. apply NoDup_fst_map_to_list. Qed.

Lemma keys_empty : keys (∅ : gmap string V) = [].
Proof. unfold keys. by rewrite map_to_list_empty. Qed.
End dict_facts.

Lemma size_eqb_0 {V} (m : gmap string V) : (size m =? 0)%nat = true <-> m = ∅.
Proof. rewrite Nat.eqb_eq. apply map_size_empty_iff. Qed.

(** ** The sweep of one device *)

Section sweep.
Variables now max_idle_seconds : Z.

Local Abbreviation stale := (is_stale now max_idle_seconds).
Local Abbreviation keep :=
  (λ r : SessionInfo, if stale r then None else Some r).

Lemma lookup_kept_sessions (sessions : gmap string SessionInfo) s :
  kept_sessions now max_idle_seconds sessions !! s = sessions !! s ≫= keep.
Proof.
  unfold kept_sessions. rewrite map_lookup_filter.
  destruct (sessions !! s) as [r|]; simpl; [|done].
  destruct (is_stale now max_idle_seconds r).
  - by rewrite option_guard_False.
  - by rewrite option_guard_True.
Qed.

Lemma cleanup_session_step device_id
    (d : gmap string (gmap string SessionInfo)) cleaned sessions s r :
  d !! device_id = Some sessions ->
  sessions !! s = Some r ->
  cleanup_session now max_idle_seconds device_id (d, cleaned) s
  = Some (if stale r then (<[device_id := delete s sessions]> d, S cleaned)
          else (d, cleaned)).
Proof.
  intros Hd Hr. unfold cleanup_session. simpl.
  rewrite (dd_getitem_Some _ _ _ _ Hd), Hr. simpl.
  by destruct (is_stale now max_idle_seconds r).
Qed.

(** The inner loop over any duplicate-free list of present session ids. *)
Lemma cleanup_sessions_loop device_id (l : list string) :
  ∀ (d : gmap string (gmap string SessionInfo)) (cleaned : nat)
    (sessions : gmap string SessionInfo),
    d !! device_id = Some sessions ->
    NoDup l ->
    (∀ s, s ∈ l -> is_Some (sessions !! s)) ->
    ∃ sessions' cleaned',
      for_each (cleanup_session now max_idle_seconds device_id) (d, cleaned) l
        = Some (<[device_id := sessions']> d, cleaned')
      ∧ (∀ s, sessions' !! s
              = if decide (s ∈ l) then sessions !! s ≫= keep else sessions !! s)
      ∧ cleaned' + size sessions' = cleaned + size sessions.
Proof.
  induction l as [|s l IH]; intros d cleaned sessions Hd Hnd Hin.
  - exists sessions, cleaned. simpl. rewrite insert_id by done.
    split; [done|]. split; [|done]. intros s. destruct (decide (s ∈ [])); [set_solver|done].
  - apply NoDup_cons in Hnd as [Hs Hnd].
    destruct (Hin s) as [r Hr]; [set_solver|].
    rewrite for_each_cons, (cleanup_session_step _ _ _ _ _ _ Hd Hr).
    destruct (is_stale now max_idle_seconds r) eqn:Hst; simpl.
    + destruct (IH (<[device_id := delete s sessions]> d) (S cleaned)
                  (delete s sessions)) as (sessions' & cleaned' & Hrun & Hlk & Hcnt).
      { apply lookup_insert_eq. }
      { done. }
      { intros s' Hs'. rewrite lookup_delete_ne by set_solver.
        apply Hin. set_solver. }
      exists sessions', cleaned'. rewrite Hrun, insert_insert_eq.
      split; [done|]. split.
      * intros s'. rewrite Hlk. destruct (decide (s' = s)) as [->|Hne].
        -- rewrite decide_False by done. rewrite decide_True by set_solver.
           rewrite lookup_delete_eq, Hr. simpl. by rewrite Hst.
        -- rewrite lookup_delete_ne by done.
           by rewrite (if_decide_cons_ne s' s) by done.
      * rewrite Hcnt, map_size_delete_Some by eauto.
        assert (size sessions ≠ 0).
        { apply map_size_non_empty_iff. intros ->. by rewrite lookup_empty in Hr. }
        lia.
    + destruct (IH d cleaned sessions Hd Hnd) as (sessions' & cleaned' & Hrun & Hlk & Hcnt).
      { intros s' Hs'. apply Hin. set_solver. }
      exists sessions', cleaned'. rewrite Hrun.
      split; [done|]. split; [|done].
      intros s'. rewrite Hlk. destruct (decide (s' = s)) as [->|Hne].
      * rewrite decide_False by done. rewrite decide_True by set_solver.
        rewrite Hr. simpl. by rewrite Hst.
      * by rewrite (if_decide_cons_ne s' s) by done.
Qed.

(** One iteration of the outer loop replaces the entry of the device by
    what the sweep leaves of it, and counts what it removed. *)
Lemma cleanup_device_spec (d : gmap string (gmap string SessionInfo))
    (cleaned : nat) device_id :
  ∃ cleaned',
    cleanup_device now max_idle_seconds (d, cleaned) device_id
      = Some (partial_alter (λ o, o ≫= sweep_entry now max_idle_seconds) device_id d,
              cleaned')
    ∧ cleaned' + size (kept_sessions now max_idle_seconds (default ∅ (d !! device_id)))
      = cleaned + size (default ∅ (d !! device_id)).
Proof.
  unfold cleanup_device. simpl.
  destruct (dd_getitem ∅ device_id d) as [sessions d1] eqn:Hget.
  pose proof (dd_getitem_lookup ∅ device_id d) as Hd1.
  pose proof (dd_getitem_fst ∅ device_id d) as Hfst.
  pose proof (λ v, dd_getitem_insert ∅ device_id d v) as Hins.
  rewrite Hget in Hd1, Hfst, Hins. simpl in Hd1, Hfst, Hins.
  destruct (cleanup_sessions_loop device_id (keys sessions) d1 cleaned sessions)
    as (sessions' & cleaned' & Hrun & Hlk & Hcnt).
  { done. } { apply NoDup_keys. } { intros s. by rewrite elem_of_keys. }
  rewrite Hrun. simpl.
  assert (sessions' = kept_sessions now max_idle_seconds sessions) as ->.
  { apply map_eq. intros s. rewrite Hlk, lookup_kept_sessions.
    case_decide as Hs; [done|]. rewrite elem_of_keys in Hs.
    apply eq_None_not_Some in Hs. by rewrite Hs. }
  rewrite (dd_getitem_Some _ _ _ (kept_sessions now max_idle_seconds sessions))
    by apply lookup_insert_eq.
  rewrite Hins. exists cleaned'. rewrite <- Hfst. split; [|done].
  destruct (size (kept_sessions now max_idle_seconds sessions) =? 0)%nat eqn:Hsz.
  - f_equal. f_equal. apply map_eq. intros k.
    destruct (decide (k = device_id)) as [->|Hne].
    + rewrite lookup_delete_eq, lookup_partial_alter_eq.
      destruct (d !! device_id) as [v|] eqn:Hv; simpl; [|done].
      simpl in Hfst. subst v. unfold sweep_entry. by rewrite Hsz.
    + rewrite lookup_delete_ne, lookup_insert_ne, lookup_partial_alter_ne by done. done.
  - f_equal. f_equal. apply map_eq. intros k.
    destruct (decide (k = device_id)) as [->|Hne].
    + rewrite lookup_insert_eq, lookup_partial_alter_eq.
      destruct (d !! device_id) as [v|] eqn:Hv; simpl.
      * simpl in Hfst. subst v. unfold sweep_entry. by rewrite Hsz.
      * simpl in Hfst. subst sessions. exfalso.
        apply Nat.eqb_neq in Hsz. apply Hsz. apply map_size_empty_iff.
        unfold kept_sessions. apply map_filter_empty.
    + rewrite lookup_insert_ne, lookup_partial_alter_ne by done. done.
Qed.

(** Record counts across the replacement of one entry. *)
Lemma session_total_insert_None (d : gmap string (gmap string SessionInfo)) k v :
  d !! k = None -> session_total (<[k := v]> d) = size v + session_total d.
Proof.
  intros Hk. unfold session_total. by rewrite map_to_list_insert.
Qed.

Lemma session_total_delete (d : gmap string (gmap string SessionInfo)) k v :
  d !! k = Some v -> session_total d = size v + session_total (delete k d).
Proof.
  intros Hk. rewrite <- (insert_delete_id d k v) at 1 by done.
  apply session_total_insert_None, lookup_delete_eq.
Qed.

Lemma session_total_insert_Some (d : gmap string (gmap string SessionInfo)) k v v' :
  d !! k = Some v ->
  session_total (<[k := v']> d) + size v = size v' + session_total d.
Proof.
  intros Hk. rewrite (session_total_delete d k v Hk).
  rewrite <- insert_delete_eq.
  rewrite session_total_insert_None by apply lookup_delete_eq. lia.
Qed.

Lemma session_total_sweep (d : gmap string (gmap string SessionInfo)) k :
  session_total (partial_alter (λ o, o ≫= sweep_entry now max_idle_seconds) k d)
    + size (default ∅ (d !! k))
  = session_total d
    + size (kept_sessions now max_idle_seconds (default ∅ (d !! k))).
Proof.
  destruct (d !! k) as [v|] eqn:Hk; simpl.
  - unfold sweep_entry.
    destruct (size (kept_sessions now max_idle_seconds v) =? 0)%nat eqn:Hsz.
    + replace (partial_alter _ k d) with (delete k d).
      * apply Nat.eqb_eq in Hsz. rewrite Hsz, (session_total_delete d k v Hk). lia.
      * apply map_eq. intros j. destruct (decide (j = k)) as [->|].
        -- rewrite lookup_delete_eq, lookup_partial_alter_eq, Hk. simpl. by rewrite Hsz.
        -- by rewrite lookup_delete_ne, lookup_partial_alter_ne.
    + replace (partial_alter _ k d)
        with (<[k := kept_sessions now max_idle_seconds v]> d).
      * pose proof (session_total_insert_Some d k v
                      (kept_sessions now max_idle_seconds v) Hk). lia.
      * apply map_eq. intros j. destruct (decide (j = k)) as [->|].
        -- rewrite lookup_insert_eq, lookup_partial_alter_eq, Hk. simpl. by rewrite Hsz.
        -- by rewrite lookup_insert_ne, lookup_partial_alter_ne.
  - replace (partial_alter _ k d) with d.
    + unfold kept_sessions. by rewrite map_filter_empty.
    + apply map_eq. intros j. destruct (decide (j = k)) as [->|].
      * by rewrite lookup_partial_alter_eq, Hk.
      * by rewrite lookup_partial_alter_ne.
Qed.

(** The outer loop over any duplicate-free list of devices. *)
Lemma cleanup_devices_loop (l : list string) :
  ∀ (d : gmap string (gmap string SessionInfo)) (cleaned : nat),
    NoDup l ->
    ∃ d' cleaned',
      for_each (cleanup_device now max_idle_seconds) (d, cleaned) l
        = Some (d', cleaned')
      ∧ (∀ k, d' !! k
              = if decide (k ∈ l) then d !! k ≫= sweep_entry now max_idle_seconds
                else d !! k)
      ∧ cleaned' + session_total d' = cleaned + session_total d.
Proof.
  induction l as [|k0 l IH]; intros d cleaned Hnd.
  - exists d, cleaned. split; [done|]. split; [|done].
    intros k. destruct (decide (k ∈ [])); [set_solver|done].
  - apply NoDup_cons in Hnd as [Hk0 Hnd].
    destruct (cleanup_device_spec d cleaned k0) as (c1 & Hstep & Hc1).
    rewrite for_each_cons, Hstep. simpl.
    destruct (IH (partial_alter (λ o, o ≫= sweep_entry now max_idle_seconds) k0 d)
                c1 Hnd) as (d' & cleaned' & Hrun & Hlk & Hcnt).
    exists d', cleaned'. split; [done|]. split.
    + intros k. rewrite Hlk. destruct (decide (k = k0)) as [->|Hne].
      * destruct (decide (k0 ∈ l)); [done|].
        destruct (decide (k0 ∈ k0 :: l)) as [_|Hn]; [|set_solver].
        by rewrite lookup_partial_alter_eq.
      * rewrite lookup_partial_alter_ne by done.
        by rewrite (if_decide_cons_ne k k0) by done.
    + pose proof (session_total_sweep d k0). lia.
Qed.

Local Abbreviation sweep := (omap (sweep_entry now max_idle_seconds)).

(** [cleanup_stale_sessions] never raises; it sweeps every entry and
    returns the number of records that disappeared. *)
Lemma cleanup_stale_sessions_eq (self : DeviceRateLimiter) :
  ∃ cleaned,
    cleanup_stale_sessions self max_idle_seconds now
      = Some (set_active_sessions (sweep (_active_sessions self)) self, cleaned)
    ∧ cleaned + session_total (sweep (_active_sessions self))
      = session_total (_active_sessions self).
Proof.
  unfold cleanup_stale_sessions.
  destruct (cleanup_devices_loop (keys (_active_sessions self))
              (_active_sessions self) 0 (NoDup_keys _))
    as (d' & cleaned & Hrun & Hlk & Hcnt).
  rewrite Hrun. simpl. exists cleaned.
  assert (d' = sweep (_active_sessions self)) as ->; [|done].
  apply map_eq. intros k. rewrite Hlk, lookup_omap.
  case_decide as Hk; [done|]. rewrite elem_of_keys in Hk.
  apply eq_None_not_Some in Hk. by rewrite Hk.
Qed.

End sweep.

(** Replace the result of a sweep found in [H] by its closed form. *)
Ltac sweep_in H :=
  match type of H with
  | context [cleanup_stale_sessions ?self ?idle ?now] =>
      let n := fresh "n" in
      let Heq := fresh "Heq" in
      destruct (cleanup_stale_sessions_eq now idle self) as (n & Heq & _);
      rewrite Heq in H; simpl in H; simplify_eq
  end.

(** ** Registration and release *)

Lemma can_create_session_spec self d :
  can_create_session self d = true
  <-> (Z.of_nat (get_active_session_count self d) < max_sessions self)%Z.
Proof. unfold can_create_session. apply Z.ltb_lt. Qed.

Lemma register_session_rejected self d s u tc ta :
  can_create_session self d = false ->
  register_session self d s u tc ta = (self, false).
Proof. unfold register_session. by intros ->. Qed.

Lemma register_session_accepted self d s u tc ta :
  can_create_session self d = true ->
  register_session self d s u tc ta
  = (set_active_sessions
       (<[d := <[s := mkSessionInfo s u tc ta]>
                 (default ∅ (_active_sessions self !! d))]> (_active_sessions self))
       self, true).
Proof.
  unfold register_session. intros ->. simpl.
  pose proof (dd_getitem_fst (V:=gmap string SessionInfo) ∅ d (_active_sessions self)) as H1.
  pose proof (dd_getitem_insert (V:=gmap string SessionInfo) ∅ d (_active_sessions self)) as H2.
  destruct (dd_getitem ∅ d (_active_sessions self)) as [sessions d1].
  simpl in *. by rewrite H2, H1.
Qed.

Lemma lookup_session_register self d s u tc ta d' s' :
  can_create_session self d = true ->
  lookup_session (register_session self d s u tc ta).1 d' s'
  = if decide (d' = d ∧ s' = s) then Some (mkSessionInfo s u tc ta)
    else lookup_session self d' s'.
Proof.
  intros Hc. rewrite register_session_accepted by done.
  unfold lookup_session. simpl.
  destruct (decide (d' = d)) as [->|Hd].
  - rewrite lookup_insert_eq. simpl.
    destruct (decide (s' = s)) as [->|Hs].
    + rewrite decide_True by done. apply lookup_insert_eq.
    + rewrite decide_False by tauto. rewrite lookup_insert_ne by done.
      destruct (_active_sessions self !! d); simpl; [done|apply lookup_empty].
  - rewrite decide_False by tauto. by rewrite lookup_insert_ne.
Qed.

Lemma count_register self d s u tc ta d' :
  can_create_session self d = true ->
  get_active_session_count (register_session self d s u tc ta).1 d'
  = if decide (d' = d)
    then match lookup_session self d s with
         | Some _ => get_active_session_count self d
         | None => S (get_active_session_count self d)
         end
    else get_active_session_count self d'.
Proof.
  intros Hc. rewrite register_session_accepted by done.
  unfold get_active_session_count, lookup_session. simpl.
  destruct (decide (d' = d)) as [->|Hd].
  - rewrite lookup_insert_eq. simpl. rewrite map_size_insert.
    destruct (_active_sessions self !! d) as [sessions|]; simpl.
    + by destruct (sessions !! s).
    + by rewrite lookup_empty.
  - by rewrite lookup_insert_ne.
Qed.

Lemma unregister_session_absent self d s :
  lookup_session self d s = None -> unregister_session self d s = (self, false).
Proof.
  unfold lookup_session, unregister_session.
  destruct (_active_sessions self !! d) as [sessions|]; simpl; [|done].
  by intros ->.
Qed.

Lemma unregister_session_present self d s r :
  lookup_session self d s = Some r ->
  ∃ sessions,
    _active_sessions self !! d = Some sessions ∧ sessions !! s = Some r
    ∧ unregister_session self d s
      = (set_active_sessions
           (if (size (delete s sessions) =? 0)%nat
            then delete d (_active_sessions self)
            else <[d := delete s sessions]> (_active_sessions self))
           self, true).
Proof.
  unfold lookup_session, unregister_session.
  destruct (_active_sessions self !! d) as [sessions|]; simpl; [|done].
  intros Hr. exists sessions. rewrite Hr. split; [done|]. split; [done|].
  destruct (size (delete s sessions) =? 0)%nat; [|done].
  by rewrite delete_insert_eq.
Qed.

Lemma lookup_session_unregister self d s d' s' :
  lookup_session (unregister_session self d s).1 d' s'
  = if decide (d' = d ∧ s' = s) then None else lookup_session self d' s'.
Proof.
  destruct (lookup_session self d s) as [r|] eqn:Hr.
  - destruct (unregister_session_present _ _ _ _ Hr) as (sessions & Hd & Hs & ->).
    unfold lookup_session. simpl.
    destruct (size (delete s sessions) =? 0)%nat eqn:Hsz.
    + apply size_eqb_0 in Hsz.
      destruct (decide (d' = d)) as [->|Hne].
      * rewrite lookup_delete_eq, Hd. simpl.
        destruct (decide (s' = s)) as [->|Hs'].
        -- by rewrite decide_True.
        -- rewrite decide_False by tauto.
           rewrite <- (lookup_delete_ne sessions s s') by done.
           by rewrite Hsz, lookup_empty.
      * rewrite decide_False by tauto. by rewrite lookup_delete_ne.
    + destruct (decide (d' = d)) as [->|Hne].
      * rewrite lookup_insert_eq, Hd. simpl.
        destruct (decide (s' = s)) as [->|Hs'].
        -- rewrite decide_True by done. apply lookup_delete_eq.
        -- rewrite decide_False by tauto. by rewrite lookup_delete_ne.
      * rewrite decide_False by tauto. by rewrite lookup_insert_ne.
  - rewrite unregister_session_absent by done. simpl.
    case_decide as H; [|done]. destruct H as [-> ->]. done.
Qed.

Lemma count_unregister self d s d' :
  get_active_session_count (unregister_session self d s).1 d'
  = if decide (d' = d)
    then match lookup_session self d s with
         | Some _ => pred (get_active_session_count self d)
         | None => get_active_session_count self d
         end
    else get_active_session_count self d'.
Proof.
  destruct (lookup_session self d s) as [r|] eqn:Hr.
  - destruct (unregister_session_present _ _ _ _ Hr) as (sessions & Hd & Hs & ->).
    unfold get_active_session_count. simpl.
    destruct (size (delete s sessions) =? 0)%nat eqn:Hsz.
    + destruct (decide (d' = d)) as [->|Hne].
      * rewrite lookup_delete_eq, Hd. simpl. apply Nat.eqb_eq in Hsz.
        rewrite map_size_delete_Some in Hsz by eauto. by rewrite map_size_empty.
      * by rewrite lookup_delete_ne.
    + destruct (decide (d' = d)) as [->|Hne].
      * rewrite lookup_insert_eq, Hd. simpl. apply map_size_delete_Some. eauto.
      * by rewrite lookup_insert_ne.
  - rewrite unregister_session_absent by done. simpl. by case_decide; subst.
Qed.

(** ** The sliding window leaves the registry alone *)

Lemma check_http_rate_limit_with_registry capacity self d now :
  _active_sessions (check_http_rate_limit_with capacity self d now).1
    = _active_sessions self
  ∧ max_sessions (check_http_rate_limit_with capacity self d now).1
    = max_sessions self.
Proof.
  unfold check_http_rate_limit_with.
  destruct (dd_getitem [] d (_http_requests self)) as [requests d1].
  by destruct (_ >=? _)%Z.
Qed.

(** ** Calls: totality and invariants *)

Lemma exec_total self c : is_Some (exec self c).
Proof.
  destruct c as [d s u tc ta|d s|d now|idle now]; simpl; try by eexists.
  destruct (cleanup_stale_sessions_eq now idle self) as (n & -> & _). by eexists.
Qed.

Lemma run_total cs : ∀ self, is_Some (run self cs).
Proof.
  unfold run. induction cs as [|c cs IH]; intros self; [by eexists|].
  rewrite for_each_cons. destruct (exec_total self c) as [self' ->]. apply IH.
Qed.

Lemma run_invariant (P : DeviceRateLimiter -> Prop) :
  (∀ self c self', P self -> exec self c = Some self' -> P self') ->
  ∀ cs self self', P self -> run self cs = Some self' -> P self'.
Proof.
  intros Hstep. unfold run. induction cs as [|c cs IH]; intros self self' HP Hrun.
  - simpl in Hrun. by simplify_eq.
  - rewrite for_each_cons in Hrun.
    destruct (exec self c) as [self1|] eqn:He; [|done].
    simpl in Hrun. eapply IH; [|done]. eauto.
Qed.

Lemma run_snoc self cs c :
  run self (cs ++ [c]) = run self cs ≫= λ self', exec self' c.
Proof.
  unfold run. rewrite for_each_app. destruct (for_each exec self cs); simpl; [|done].
  by destruct (exec _ c).
Qed.

Lemma exec_max_sessions self c self' :
  exec self c = Some self' -> max_sessions self' = max_sessions self.
Proof.
  destruct c as [d s u tc ta|d s|d now|idle now]; simpl; intros H; simplify_eq.
  - unfold register_session. destruct (negb _); [done|].
    by destruct (dd_getitem _ _ _).
  - unfold unregister_session.
    destruct (_ !! d) as [sessions|]; [|done]. by destruct (sessions !! s).
  - apply check_http_rate_limit_with_registry.
  - by sweep_in H.
Qed.

Lemma count_sweep now idle (d : gmap string (gmap string SessionInfo)) k :
  (size (default ∅ (omap (sweep_entry now idle) d !! k))
   <= size (default ∅ (d !! k)))%nat.
Proof.
  rewrite lookup_omap. destruct (d !! k) as [v|]; simpl; [|done].
  unfold sweep_entry. destruct (_ =? _)%nat; simpl.
  - rewrite map_size_empty. lia.
  - apply map_size_filter.
Qed.

Lemma exec_within_cap self c self' :
  within_cap self -> exec self c = Some self' -> within_cap self'.
Proof.
  intros Hcap He d'. rewrite (exec_max_sessions _ _ _ He).
  specialize (Hcap d') as Hd'.
  destruct c as [d s u tc ta|d s|d now|idle now]; simpl in He; simplify_eq.
  - destruct (can_create_session self d) eqn:Hc.
    + rewrite count_register by done. apply can_create_session_spec in Hc.
      case_decide; [subst|done]. destruct (lookup_session self d s); lia.
    + by rewrite register_session_rejected.
  - rewrite count_unregister. case_decide; [subst|done].
    destruct (lookup_session self d s); lia.
  - unfold get_active_session_count, check_http_rate_limit in *.
    by rewrite (proj1 (check_http_rate_limit_with_registry _ _ _ _)).
  - sweep_in He.
    unfold get_active_session_count in *. simpl.
    pose proof (count_sweep now idle (_active_sessions self) d'). lia.
Qed.

Lemma exec_no_empty_entries self c self' :
  no_empty_entries self -> exec self c = Some self' -> no_empty_entries self'.
Proof.
  intros Hne He d'.
  destruct c as [d s u tc ta|d s|d now|idle now]; simpl in He; simplify_eq.
  - destruct (can_create_session self d) eqn:Hc.
    + rewrite register_session_accepted by done. simpl.
      destruct (decide (d' = d)) as [->|].
      * rewrite lookup_insert_eq. intros [= H]. by apply insert_non_empty in H.
      * rewrite lookup_insert_ne by done. apply Hne.
    + rewrite register_session_rejected by done. apply Hne.
  - destruct (lookup_session self d s) as [r|] eqn:Hr.
    + destruct (unregister_session_present _ _ _ _ Hr) as (sessions & Hd & Hs & ->).
      simpl. destruct (size (delete s sessions) =? 0)%nat eqn:Hsz.
      * destruct (decide (d' = d)) as [->|].
        -- by rewrite lookup_delete_eq.
        -- rewrite lookup_delete_ne by done. apply Hne.
      * destruct (decide (d' = d)) as [->|].
        -- rewrite lookup_insert_eq. intros [= H].
           rewrite H, map_size_empty in Hsz. done.
        -- rewrite lookup_insert_ne by done. apply Hne.
    + rewrite unregister_session_absent by done. apply Hne.
  - unfold check_http_rate_limit.
    rewrite (proj1 (check_http_rate_limit_with_registry _ _ _ _)). apply Hne.
  - sweep_in He. simpl.
    rewrite lookup_omap. destruct (_active_sessions self !! d') as [v|]; simpl; [|done].
    unfold sweep_entry. destruct (_ =? _)%nat eqn:Hsz; [done|].
    intros [= H]. rewrite H, map_size_empty in Hsz. done.
Qed.

Lemma init_within_cap cap : (0 <= cap)%Z -> within_cap (init cap).
Proof.
  intros H d. unfold get_active_session_count. simpl.
  rewrite lookup_empty. simpl. rewrite map_size_empty. lia.
Qed.

Lemma init_no_empty_entries cap : no_empty_entries (init cap).
Proof. intros d. simpl. by rewrite lookup_empty. Qed.

Lemma reachable_no_empty_entries cap self :
  reachable cap self -> no_empty_entries self.
Proof.
  intros [cs Hrun].
  eapply (run_invariant no_empty_entries exec_no_empty_entries); [|done].
  apply init_no_empty_entries.
Qed.

Lemma reachable_max_sessions cap self :
  reachable cap self -> max_sessions self = cap.
Proof.
  intros [cs Hrun].
  apply (run_invariant (λ s, max_sessions s = cap)) with cs (init cap);
    [|done|done].
  intros s c s' <- He. by apply exec_max_sessions in He.
Qed.

(** ** Idle reclamation, record by record *)

Lemma is_stale_spec now idle r :
  is_stale now idle r = true
  <-> (inject_Z idle < total_seconds (now - last_activity r))%Q.
Proof.
  unfold is_stale, Qgtb. rewrite negb_true_iff.
  rewrite <- not_true_iff_false, Qle_bool_iff. split.
  - apply Qnot_le_lt.
  - apply Qlt_not_le.
Qed.

Lemma lookup_session_sweep now idle self d s :
  lookup_session
    (set_active_sessions (omap (sweep_entry now idle) (_active_sessions self)) self) d s
  = lookup_session self d s ≫= λ r, if is_stale now idle r then None else Some r.
Proof.
  unfold lookup_session. simpl. rewrite lookup_omap.
  destruct (_active_sessions self !! d) as [v|]; simpl; [|done].
  rewrite <- lookup_kept_sessions. unfold sweep_entry.
  destruct (_ =? _)%nat eqn:Hsz; simpl; [|done].
  apply size_eqb_0 in Hsz. by rewrite Hsz, lookup_empty.
Qed.

Lemma sweep_nothing_stale now idle self :
  no_empty_entries self ->
  (∀ d s r, lookup_session self d s = Some r -> is_stale now idle r = false) ->
  omap (sweep_entry now idle) (_active_sessions self) = _active_sessions self.
Proof.
  intros Hne Hfresh. apply map_eq. intros d. rewrite lookup_omap.
  destruct (_active_sessions self !! d) as [v|] eqn:Hd; simpl; [|done].
  assert (kept_sessions now idle v = v) as Hkept.
  { apply map_filter_id. intros s r Hs. simpl. apply (Hfresh d s).
    unfold lookup_session. by rewrite Hd. }
  unfold sweep_entry. rewrite Hkept.
  destruct (size v =? 0)%nat eqn:Hsz; [|done].
  apply size_eqb_0 in Hsz. subst v. by destruct (Hne d).
Qed.

Lemma set_active_sessions_id self :
  set_active_sessions (_active_sessions self) self = self.
Proof. by destruct self. Qed.

(** * Main results *)

(** C1.  With a non-negative [max_sessions], after every sequence of
    [register_session], [unregister_session], [cleanup_stale_sessions]
    (and [check_http_rate_limit]) calls on a fresh limiter, no device holds
    more than [max_sessions] sessions.  A [register_session] call made when
    the count equals [max_sessions] is refused and changes nothing, one made
    below it is admitted (the test is a strict less-than), and a
    registration never removes a record: every record present before the
    call is present after it, unchanged unless it is the registered one. *)
Theorem session_cap_never_exceeded (cap : Z) (Hcap : (0 <= cap)%Z) :
  (∀ cs, ∃ self,
      run (init cap) cs = Some self
      ∧ max_sessions self = cap
      ∧ ∀ d, (Z.of_nat (get_active_session_count self d) <= cap)%Z)
  ∧ (∀ self d s u tc ta,
      Z.of_nat (get_active_session_count self d) = max_sessions self ->
      can_create_session self d = false
      ∧ register_session self d s u tc ta = (self, false))
  ∧ (∀ self d s u tc ta,
      (Z.of_nat (get_active_session_count self d) < max_sessions self)%Z ->
      (register_session self d s u tc ta).2 = true)
  ∧ (∀ self d s u tc ta d' s' r,
      lookup_session self d' s' = Some r ->
      ∃ r', lookup_session (register_session self d s u tc ta).1 d' s' = Some r'
            ∧ ((d' = d ∧ s' = s) ∨ r' = r)).
Proof.
  split; [|split; [|split]].
  - intros cs. destruct (run_total cs (init cap)) as [self Hrun].
    exists self. split; [done|].
    assert (max_sessions self = cap) as Hmax
      by (apply reachable_max_sessions; by exists cs).
    split; [done|]. rewrite <- Hmax.
    apply (run_invariant within_cap exec_within_cap cs (init cap)); [|done].
    by apply init_within_cap.
  - intros self d s u tc ta Hfull.
    assert (can_create_session self d = false) as Hc.
    { apply not_true_iff_false. rewrite can_create_session_spec. lia. }
    split; [done|]. by apply register_session_rejected.
  - intros self d s u tc ta Hlt. apply can_create_session_spec in Hlt.
    by rewrite register_session_accepted.
  - intros self d s u tc ta d' s' r Hr.
    destruct (can_create_session self d) eqn:Hc.
    + rewrite lookup_session_register by done. case_decide; eauto.
    + rewrite register_session_rejected by done. eauto.
Qed.

Lemma session_cap_never_exceeded_witness :
  ∃ self,
    run (init 2) [RegisterSession "dev" "s1" "u" 0 0;
                  RegisterSession "dev" "s2" "u" 1 1;
                  RegisterSession "dev" "s3" "u" 2 2;
                  UnregisterSession "dev" "s1";
                  CleanupStaleSessions 3600 5000000] = Some self
    ∧ max_sessions self = 2%Z
    ∧ ∀ d, (Z.of_nat (get_active_session_count self d) <= 2)%Z.
Proof.
  apply (proj1 (session_cap_never_exceeded 2 ltac:(lia))).
Defined.

(** C5.  In a reachable state [cleanup_stale_sessions] returns (it never
    raises); afterwards a record is present exactly when it was present
    before and its idle time [now - last_activity], in seconds, does not
    strictly exceed [max_idle_seconds], and it is then unchanged; no empty
    device entry remains; the returned number is the number of records
    that disappeared; the rest of the state is untouched.  When no record
    is idle beyond the threshold the call returns 0 and changes nothing. *)
Theorem cleanup_stale_sessions_exact (cap : Z) (self : DeviceRateLimiter)
    (max_idle_seconds now : Z) (Hreach : reachable cap self) :
  ∃ self' cleaned,
    cleanup_stale_sessions self max_idle_seconds now = Some (self', cleaned)
    ∧ (∀ d s, lookup_session self' d s
              = lookup_session self d s ≫= λ r,
                  if is_stale now max_idle_seconds r then None else Some r)
    ∧ (∀ r, is_stale now max_idle_seconds r = true
            <-> (inject_Z max_idle_seconds
                 < (now - last_activity r) # 1000000)%Q)
    ∧ no_empty_entries self'
    ∧ cleaned + total_sessions (get_stats self') = total_sessions (get_stats self)
    ∧ max_sessions self' = max_sessions self
    ∧ _http_requests self' = _http_requests self
    ∧ ((∀ d s r, lookup_session self d s = Some r ->
                 is_stale now max_idle_seconds r = false) ->
       cleaned = 0 ∧ self' = self).
Proof.
  destruct (cleanup_stale_sessions_eq now max_idle_seconds self)
    as (cleaned & Heq & Hcnt).
  eexists _, cleaned. split; [exact Heq|].
  pose proof (reachable_no_empty_entries _ _ Hreach) as Hne.
  split; [apply lookup_session_sweep|].
  split; [apply is_stale_spec|].
  split.
  { apply (exec_no_empty_entries self (CleanupStaleSessions max_idle_seconds now));
      [done|]. simpl. by rewrite Heq. }
  split; [exact Hcnt|]. split; [done|]. split; [done|].
  intros Hfresh. rewrite sweep_nothing_stale in * by done.
  split; [lia|]. apply set_active_sessions_id.
Qed.

Lemma cleanup_stale_sessions_exact_witness :
  ∃ self' cleaned,
    cleanup_stale_sessions
      (register_session (init 8) "dev" "s1" "u" 0 0).1 3600 3600000001
      = Some (self', cleaned)
    ∧ lookup_session self' "dev" "s1" = None
    ∧ cleaned + total_sessions (get_stats self') = 1.
Proof.
  destruct (cleanup_stale_sessions_exact 8
              (register_session (init 8) "dev" "s1" "u" 0 0).1 3600 3600000001)
    as (self' & cleaned & Heq & Hlk & _ & _ & Hcnt & _).
  { by exists [RegisterSession "dev" "s1" "u" 0 0]. }
  exists self', cleaned. split; [exact Heq|]. split; [|exact Hcnt].
  rewrite Hlk. reflexivity.
Defined.

(** C6.  [unregister_session] returns [true] exactly when the record was
    present, and then removes that record and no other; if the device has
    no other session its key leaves the store and its count is 0; a
    release never leaves an empty entry behind.  For an absent pair it
    returns [false] and the state is unchanged.  It is a total function:
    no input makes it raise. *)
Theorem unregister_session_spec (self : DeviceRateLimiter) (d s : string) :
  ((unregister_session self d s).2 = true <-> is_Some (lookup_session self d s))
  ∧ (∀ d' s', lookup_session (unregister_session self d s).1 d' s'
              = if decide (d' = d ∧ s' = s) then None else lookup_session self d' s')
  ∧ (is_Some (lookup_session self d s) ->
     (∀ s', s' ≠ s -> lookup_session self d s' = None) ->
     _active_sessions (unregister_session self d s).1 !! d = None
     ∧ get_active_session_count (unregister_session self d s).1 d = 0)
  ∧ (is_Some (lookup_session self d s) ->
     _active_sessions (unregister_session self d s).1 !! d ≠ Some ∅)
  ∧ (lookup_session self d s = None -> unregister_session self d s = (self, false))
  ∧ max_sessions (unregister_session self d s).1 = max_sessions self
  ∧ _http_requests (unregister_session self d s).1 = _http_requests self.
Proof.
  split; [|split; [|split; [|split; [|split; [|split]]]]].
  - destruct (lookup_session self d s) as [r|] eqn:Hr.
    + destruct (unregister_session_present _ _ _ _ Hr) as (? & _ & _ & ->).
      simpl. split; eauto.
    + rewrite unregister_session_absent by done. simpl.
      split; [done|]. by intros [? ?].
  - apply lookup_session_unregister.
  - intros [r Hr] Honly.
    destruct (unregister_session_present _ _ _ _ Hr) as (sessions & Hd & Hs & Heq).
    assert (delete s sessions = ∅) as Hempty.
    { apply map_eq. intros s'. rewrite lookup_empty.
      destruct (decide (s' = s)) as [->|Hne].
      - apply lookup_delete_eq.
      - rewrite lookup_delete_ne by done. specialize (Honly s' Hne).
        unfold lookup_session in Honly. by rewrite Hd in Honly. }
    rewrite Heq. unfold get_active_session_count. simpl.
    rewrite Hempty, map_size_empty. simpl.
    rewrite lookup_delete_eq. simpl. split; [done|apply map_size_empty].
  - intros [r Hr].
    destruct (unregister_session_present _ _ _ _ Hr) as (sessions & Hd & Hs & ->).
    simpl. destruct (size (delete s sessions) =? 0)%nat eqn:Hsz.
    + by rewrite lookup_delete_eq.
    + rewrite lookup_insert_eq. intros [= H]. by rewrite H, map_size_empty in Hsz.
  - apply unregister_session_absent.
  - apply (exec_max_sessions self (UnregisterSession d s)). done.
  - unfold unregister_session.
    destruct (_ !! d) as [sessions|]; [|done]. by destruct (sessions !! s).
Qed.

Lemma unregister_session_spec_witness :
  _active_sessions
    (unregister_session (register_session (init 8) "dev" "s1" "u" 0 0).1
       "dev" "s1").1 !! "dev" = None
  ∧ get_active_session_count
      (unregister_session (register_session (init 8) "dev" "s1" "u" 0 0).1
         "dev" "s1").1 "dev" = 0.
Proof.
  apply (proj1 (proj2 (proj2
    (unregister_session_spec (register_session (init 8) "dev" "s1" "u" 0 0).1
       "dev" "s1")))).
  - by vm_compute; eexists.
  - intros s' Hs'. unfold lookup_session.
    rewrite register_session_accepted by reflexivity. simpl.
    rewrite lookup_insert_eq. simpl. rewrite lookup_insert_ne by done.
    apply lookup_empty.
Defined.

(** ** Re-registration *)

(** A second registration of a session of a full device is refused: the
    stored record is not replaced. *)
Lemma reregistration_not_always_overwrites :
  ¬ (∀ self d s u1 t1 t1' u2 t2 t2',
       (register_session self d s u1 t1 t1').2 = true ->
       lookup_session
         (register_session (register_session self d s u1 t1 t1').1 d s u2 t2 t2').1
         d s
       = Some (mkSessionInfo s u2 t2 t2')).
Proof.
  intros H.
  specialize (H (init 1) "dev" "s" "alice" 0%Z 0%Z "bob" 5%Z 5%Z eq_refl).
  vm_compute in H. discriminate H.
Qed.

(** C7 (amended).  Registering the same (device, session id) twice never
    changes the count reached after the first call.  When the first call
    was admitted, the second one is admitted exactly if the device is then
    still below [max_sessions]: it then returns [true] and replaces the
    record in place by a new one (new user id and new timestamps), every
    other record being unchanged; otherwise it returns [false] and changes
    nothing, the stored record included. *)
Theorem register_session_twice (self : DeviceRateLimiter)
    (d s u1 u2 : string) (t1 t1' t2 t2' : Z) :
  let first := register_session self d s u1 t1 t1' in
  let second := register_session first.1 d s u2 t2 t2' in
  (∀ d', get_active_session_count second.1 d' = get_active_session_count first.1 d')
  ∧ (first.2 = true ->
     if can_create_session first.1 d
     then second.2 = true
          ∧ lookup_session second.1 d s = Some (mkSessionInfo s u2 t2 t2')
          ∧ (∀ d' s', ¬ (d' = d ∧ s' = s) ->
                      lookup_session second.1 d' s' = lookup_session first.1 d' s')
     else second = (first.1, false)
          ∧ lookup_session second.1 d s = Some (mkSessionInfo s u1 t1 t1')).
Proof.
  intros first second.
  assert (first.2 = true -> lookup_session first.1 d s = Some (mkSessionInfo s u1 t1 t1'))
    as Hfirst.
  { subst first. destruct (can_create_session self d) eqn:Hc.
    - intros _. rewrite lookup_session_register by done. by rewrite decide_True.
    - by rewrite register_session_rejected. }
  split.
  - intros d'. subst second. destruct (can_create_session first.1 d) eqn:Hc2.
    + rewrite count_register by done. case_decide; [subst d'|done].
      destruct (lookup_session first.1 d s) eqn:Hl; [done|].
      subst first. destruct (can_create_session self d) eqn:Hc.
      * rewrite lookup_session_register in Hl by done.
        by rewrite decide_True in Hl.
      * rewrite register_session_rejected in Hc2 by done. simpl in Hc2. congruence.
    + by rewrite register_session_rejected.
  - intros Hok. subst second. destruct (can_create_session first.1 d) eqn:Hc2.
    + split; [by rewrite register_session_accepted|]. split.
      * rewrite lookup_session_register by done. by rewrite decide_True.
      * intros d' s' Hne. rewrite lookup_session_register by done.
        by rewrite decide_False.
    + rewrite register_session_rejected by done. split; [done|]. by apply Hfirst.
Qed.

Lemma register_session_twice_witness :
  let first := register_session (init 1) "dev" "s" "alice" 0 0 in
  let second := register_session first.1 "dev" "s" "bob" 5 5 in
  second = (first.1, false)
  ∧ lookup_session second.1 "dev" "s" = Some (mkSessionInfo "s" "alice" 0 0).
Proof.
  exact (proj2 (register_session_twice (init 1) "dev" "s" "alice" "bob" 0 0 5 5)
           eq_refl).
Defined.

(** ** Timestamps of a record *)

Lemma exec_lookup_session self c self' d s r :
  exec self c = Some self' ->
  lookup_session self' d s = Some r ->
  lookup_session self d s = Some r ∨ written_by [c] d s r.
Proof.
  intros He Hr.
  destruct c as [d0 s0 u tc ta|d0 s0|d0 now|idle now]; simpl in He; simplify_eq.
  - destruct (can_create_session self d0) eqn:Hc.
    + rewrite lookup_session_register in Hr by done.
      case_decide as Heq; [|by left]. destruct Heq as [-> ->]. simplify_eq.
      right. exists u, tc, ta. split; [apply list_elem_of_here|done].
    + rewrite register_session_rejected in Hr by done. by left.
  - rewrite lookup_session_unregister in Hr. case_decide; [done|by left].
  - left. unfold lookup_session, check_http_rate_limit in *.
    by rewrite (proj1 (check_http_rate_limit_with_registry _ _ _ _)) in Hr.
  - sweep_in He.
    rewrite lookup_session_sweep in Hr.
    destruct (lookup_session self d s) as [r0|]; simpl in Hr; [|done].
    destruct (is_stale now idle r0); [done|]. left. by simplify_eq.
Qed.

Lemma run_lookup_session cs : ∀ self self' d s r,
  run self cs = Some self' ->
  lookup_session self' d s = Some r ->
  lookup_session self d s = Some r ∨ written_by cs d s r.
Proof.
  unfold run. induction cs as [|c cs IH]; intros self self' d s r Hrun Hr.
  - simpl in Hrun. simplify_eq. by left.
  - rewrite for_each_cons in Hrun.
    destruct (exec self c) as [self1|] eqn:He; [|done]. simpl in Hrun.
    destruct (IH _ _ _ _ _ Hrun Hr) as [H1|(u & tc & ta & Hin & ->)].
    + destruct (exec_lookup_session _ _ _ _ _ _ He H1)
        as [H0|(u & tc & ta & Hin & ->)]; [by left|].
      right. exists u, tc, ta. split; [|done].
      apply list_elem_of_singleton in Hin as <-. apply list_elem_of_here.
    + right. exists u, tc, ta. split; [|done]. by apply list_elem_of_further.
Qed.

(** A record whose two timestamps differ is reachable: the constructor
    of [SessionInfo] reads the clock once per field. *)
Lemma last_activity_may_differ_from_created_at :
  ¬ (∀ cap self d s r,
       reachable cap self -> lookup_session self d s = Some r ->
       last_activity r = created_at r).
Proof.
  intros H.
  specialize (H 8%Z (register_session (init 8) "dev" "s" "u" 0 1).1 "dev" "s"
                (mkSessionInfo "s" "u" 0 1)).
  assert (1 = 0)%Z as Habs; [|done].
  apply H; [|reflexivity].
  by exists [RegisterSession "dev" "s" "u" 0 1].
Qed.

(** C10 (amended).  No call changes the timestamps of a stored record: a
    record found after a call is the record found before it, unless the
    call is a registration of that very (device, session id), which
    replaces it.  Hence every record of a reachable state is the one
    written by a registration of the run, and carries the two clock
    readings of that registration ([created_at] first, [last_activity]
    second); they are equal when the two readings of every registration
    coincide.  Idle reclamation tests the time elapsed since the second
    reading of the registration. *)
Theorem last_activity_set_at_registration (cap : Z) (cs : list call)
    (self : DeviceRateLimiter) (Hrun : run (init cap) cs = Some self) :
  (∀ self0 c self1 d s r1,
      exec self0 c = Some self1 -> lookup_session self1 d s = Some r1 ->
      lookup_session self0 d s = Some r1
      ∨ ∃ u tc ta, c = RegisterSession d s u tc ta ∧ r1 = mkSessionInfo s u tc ta)
  ∧ (∀ d s r, lookup_session self d s = Some r ->
      ∃ u tc ta,
        RegisterSession d s u tc ta ∈ cs
        ∧ r = mkSessionInfo s u tc ta
        ∧ ∀ now idle,
            is_stale now idle r = true
            <-> (inject_Z idle < (now - ta) # 1000000)%Q)
  ∧ ((∀ d s u tc ta, RegisterSession d s u tc ta ∈ cs -> ta = tc) ->
     ∀ d s r, lookup_session self d s = Some r -> last_activity r = created_at r).
Proof.
  assert (∀ d s r, lookup_session self d s = Some r -> written_by cs d s r) as Hw.
  { intros d s r Hr.
    destruct (run_lookup_session cs _ _ _ _ _ Hrun Hr) as [H0|H]; [|done].
    unfold lookup_session in H0. simpl in H0. by rewrite lookup_empty in H0. }
  split; [|split].
  - intros self0 c self1 d s r1 He Hr1.
    destruct (exec_lookup_session _ _ _ _ _ _ He Hr1)
      as [H0|(u & tc & ta & Hin & ->)]; [by left|].
    right. exists u, tc, ta. split; [|done].
    by apply list_elem_of_singleton in Hin.
  - intros d s r Hr. destruct (Hw d s r Hr) as (u & tc & ta & Hin & ->).
    exists u, tc, ta. split; [done|]. split; [done|].
    intros now idle. apply is_stale_spec.
  - intros Hsame d s r Hr. destruct (Hw d s r Hr) as (u & tc & ta & Hin & ->).
    simpl. eauto.
Qed.

Lemma last_activity_set_at_registration_witness :
  ∃ u tc ta,
    RegisterSession "dev" "s" u tc ta ∈ [RegisterSession "dev" "s" "u" 0 1]
    ∧ mkSessionInfo "s" "u" 0 1 = mkSessionInfo "s" u tc ta
    ∧ ∀ now idle,
        is_stale now idle (mkSessionInfo "s" "u" 0 1) = true
        <-> (inject_Z idle < (now - ta) # 1000000)%Q.
Proof.
  apply (proj1 (proj2
    (last_activity_set_at_registration 8 [RegisterSession "dev" "s" "u" 0 1]
       (register_session (init 8) "dev" "s" "u" 0 1).1 eq_refl))
    "dev" "s").
  reflexivity.
Defined.

(** ** Sliding window *)

Lemma Qgtb_spec x y : Qgtb x y = true <-> (y < x)%Q.
Proof.
  unfold Qgtb. rewrite negb_true_iff, <- not_true_iff_false, Qle_bool_iff.
  split; [apply Qnot_le_lt|apply Qlt_not_le].
Qed.

Lemma Qgtb_false x y : Qgtb x y = false <-> (x <= y)%Q.
Proof.
  unfold Qgtb. rewrite negb_false_iff. apply Qle_bool_iff.
Qed.

Lemma in_window_all now requests :
  (∀ ts, ts ∈ requests -> (now - 60 < ts)%Q) -> in_window now requests = requests.
Proof.
  unfold in_window. induction requests as [|ts l IH]; intros H; [done|].
  simpl. rewrite (proj2 (Qgtb_spec ts (now - 60))) by (apply H; left).
  f_equal. apply IH. intros ts' Hin. apply H. by right.
Qed.

Lemma in_window_none now requests :
  (∀ ts, ts ∈ requests -> (ts <= now - 60)%Q) -> in_window now requests = [].
Proof.
  unfold in_window. induction requests as [|ts l IH]; intros H; [done|].
  simpl. rewrite (proj2 (Qgtb_false ts (now - 60))) by (apply H; left).
  apply IH. intros ts' Hin. apply H. by right.
Qed.

Lemma elem_of_in_window now requests ts :
  ts ∈ in_window now requests <-> ts ∈ requests ∧ (now - 60 < ts)%Q.
Proof.
  unfold in_window. rewrite !list_elem_of_In, filter_In, Qgtb_spec. done.
Qed.

Lemma check_http_rate_limit_with_eq capacity self d now :
  let requests := in_window now (default [] (_http_requests self !! d)) in
  check_http_rate_limit_with capacity self d now
  = if (Z.of_nat (length requests) >=? capacity)%Z
    then (set_http_requests (<[d := requests]> (_http_requests self)) self, false)
    else (set_http_requests (<[d := (requests ++ [now])%list]> (_http_requests self))
            self, true).
Proof.
  unfold check_http_rate_limit_with, in_window.
  pose proof (dd_getitem_fst (V:=list Q) [] d (_http_requests self)) as H1.
  pose proof (dd_getitem_insert (V:=list Q) [] d (_http_requests self)) as H2.
  destruct (dd_getitem [] d (_http_requests self)) as [requests d1].
  simpl in *. subst requests.
  destruct (_ >=? _)%Z; by rewrite ?insert_insert_eq, H2.
Qed.

Lemma check_http_rate_limit_with_full capacity self d now :
  (capacity <= Z.of_nat (length (in_window now (default [] (_http_requests self !! d)))))%Z ->
  check_http_rate_limit_with capacity self d now
  = (set_http_requests
       (<[d := in_window now (default [] (_http_requests self !! d))]>
          (_http_requests self)) self, false).
Proof.
  intros H. rewrite check_http_rate_limit_with_eq. simpl.
  by rewrite (proj2 (Z.geb_le _ _)).
Qed.

Lemma check_http_rate_limit_with_room capacity self d now :
  (Z.of_nat (length (in_window now (default [] (_http_requests self !! d)))) < capacity)%Z ->
  check_http_rate_limit_with capacity self d now
  = (set_http_requests
       (<[d := (in_window now (default [] (_http_requests self !! d)) ++ [now])%list]>
          (_http_requests self)) self, true).
Proof.
  intros H. rewrite check_http_rate_limit_with_eq. simpl.
  destruct (_ >=? _)%Z eqn:E; [|done]. apply Z.geb_le in E. lia.
Qed.

(** A burst that starts with [live] in the window and fills the window. *)
Lemma check_many_burst (c : nat) d t_last (times : list Q) :
  ∀ self (live : list Q),
    (∀ t, t ∈ (times ++ [t_last])%list ->
          in_window t (default [] (_http_requests self !! d)) = live) ->
    (∀ t t', t ∈ times -> t' ∈ (times ++ [t_last])%list -> (t' - 60 < t)%Q) ->
    length live + length times = c ->
    (check_many (Z.of_nat c) self d (times ++ [t_last])).2
      = (replicate (length times) true ++ [false])%list
    ∧ _http_requests (check_many (Z.of_nat c) self d (times ++ [t_last])).1 !! d
      = Some (live ++ times)%list.
Proof.
  induction times as [|t times IH]; intros self live Hlive Hwin Hlen.
  - simpl in *. rewrite check_http_rate_limit_with_full.
    + simpl. rewrite lookup_insert_eq, (Hlive t_last) by left.
      by rewrite app_nil_r.
    + rewrite (Hlive t_last) by left. lia.
  - assert (∀ t' ts, t' ∈ (times ++ [t_last])%list -> ts ∈ live -> (t' - 60 < ts)%Q)
      as Halive.
    { intros t' ts Ht' Hts. rewrite <- (Hlive t') in Hts by (by right).
      by apply elem_of_in_window in Hts as [_ ?]. }
    cbn [check_many app]. rewrite check_http_rate_limit_with_room.
    2:{ rewrite (Hlive t) by left. simpl in Hlen. lia. }
    rewrite (Hlive t) by left. cbn [fst snd].
    destruct (IH (set_http_requests (<[d := (live ++ [t])%list]> (_http_requests self)) self)
                (live ++ [t])%list) as [Hres Hst].
    + intros t' Ht'. simpl. rewrite lookup_insert_eq. simpl.
      apply in_window_all. intros ts Hts.
      apply elem_of_app in Hts as [Hts|Hts].
      * by apply Halive.
      * apply list_elem_of_singleton in Hts as ->. apply Hwin; [left|by right].
    + intros t1 t2 Ht1 Ht2. apply Hwin; by right.
    + rewrite length_app. simpl in *. lia.
    + rewrite Hres, Hst. simpl. by rewrite <- app_assoc.
Qed.

(** C3.  With capacity [c], [check_http_rate_limit] keeps of the stored
    timestamps of the device exactly those strictly greater than
    [now - 60]; if at least [c] remain it stores them and returns [false],
    otherwise it stores them followed by [now] and returns [true].  So
    from a state whose timestamps for the device have expired, [c] calls
    followed by one more, all within one window, return [true] [c] times
    and then [false]; and once every stored timestamp is at most
    [now - 60], a call returns [true] again (for [c] at least 1).  The
    capacity of [check_http_rate_limit] is 60. *)
Theorem sliding_window_counter (c : nat) :
  (∀ self d now,
      let requests := in_window now (default [] (_http_requests self !! d)) in
      (∀ ts, ts ∈ requests
             <-> ts ∈ default [] (_http_requests self !! d) ∧ (now - 60 < ts)%Q)
      ∧ check_http_rate_limit_with (Z.of_nat c) self d now
        = if decide (c <= length requests)%nat
          then (set_http_requests (<[d := requests]> (_http_requests self)) self, false)
          else (set_http_requests
                  (<[d := (requests ++ [now])%list]> (_http_requests self)) self, true))
  ∧ (∀ self d times t_last,
      length times = c ->
      (∀ t ts, t ∈ (times ++ [t_last])%list ->
               ts ∈ default [] (_http_requests self !! d) -> (ts <= t - 60)%Q) ->
      (∀ t t', t ∈ times -> t' ∈ (times ++ [t_last])%list -> (t' - 60 < t)%Q) ->
      (check_many (Z.of_nat c) self d (times ++ [t_last])).2
        = (replicate c true ++ [false])%list
      ∧ _http_requests (check_many (Z.of_nat c) self d (times ++ [t_last])).1 !! d
        = Some times)
  ∧ (∀ self d now,
      (0 < c)%nat ->
      (∀ ts, ts ∈ default [] (_http_requests self !! d) -> (ts <= now - 60)%Q) ->
      (check_http_rate_limit_with (Z.of_nat c) self d now).2 = true
      ∧ _http_requests (check_http_rate_limit_with (Z.of_nat c) self d now).1 !! d
        = Some [now])
  ∧ check_http_rate_limit = check_http_rate_limit_with (Z.of_nat 60).
Proof.
  split; [|split; [|split; [|reflexivity]]].
  - intros self d now requests. split; [apply elem_of_in_window|].
    case_decide as Hc.
    + apply check_http_rate_limit_with_full. fold requests. lia.
    + apply check_http_rate_limit_with_room. fold requests. lia.
  - intros self d times t_last Hlen Hold Hwin.
    destruct (check_many_burst c d t_last times self []) as [Hres Hst].
    + intros t Ht. apply in_window_none. intros ts Hts. by apply (Hold t).
    + done.
    + simpl. done.
    + rewrite Hres, Hst, Hlen. done.
  - intros self d now Hc Hold.
    rewrite check_http_rate_limit_with_room.
    + simpl. rewrite lookup_insert_eq, in_window_none by done. done.
    + rewrite in_window_none by done. simpl. lia.
Qed.

Lemma sliding_window_counter_witness :
  (check_many 3 (init 8) "dev" ([0; 10; 59]%Q ++ [59.5]%Q)%list).2
    = (replicate 3 true ++ [false])%list
  ∧ _http_requests (check_many 3 (init 8) "dev" ([0; 10; 59]%Q ++ [59.5]%Q)%list).1 !! "dev"
    = Some [0; 10; 59]%Q.
Proof.
  apply (proj1 (proj2 (sliding_window_counter 3)) (init 8) "dev" [0; 10; 59]%Q 59.5%Q).
  - reflexivity.
  - intros t ts _ Hts. simpl in Hts. rewrite lookup_empty in Hts. simpl in Hts.
    by apply elem_of_nil in Hts.
  - intros t t' Ht Ht'.
    repeat (apply elem_of_cons in Ht as [->|Ht]);
      try (by apply elem_of_nil in Ht);
      repeat (apply elem_of_cons in Ht' as [->|Ht']);
      try (by apply elem_of_nil in Ht'); reflexivity.
Defined.

(** The scenario of the specification: capacity 3, four calls in one
    window, then a call after the window has passed. *)
Example sliding_window_scenario :
  let r := check_many 3 (init 8) "dev" [0; 1; 2; 3; 63]%Q in
  r.2 = [true; true; true; false; true]
  ∧ _http_requests r.1 !! "dev" = Some [63]%Q.
Proof. vm_compute. done. Qed.

(** ** Fingerprint *)

Section strip_facts.
Import Reference.
Local Abbreviation sp := PyStr.isspace.

Lemma lstrip_drop_while s :
  PyStr.lstrip s = string_of_list_ascii (drop_while sp (list_ascii_of_string s)).
Proof.
  induction s as [|c s IH]; [done|]. simpl.
  destruct (sp c); [done|]. simpl. by rewrite string_of_list_ascii_of_string.
Qed.

Lemma drop_while_snoc l c :
  drop_while sp (l ++ [c])%list
  = match drop_while sp l with
    | [] => if sp c then [] else [c]
    | r => (r ++ [c])%list
    end.
Proof.
  induction l as [|a l IH]; simpl; [done|].
  destruct (sp a); [done|]. done.
Qed.

Lemma rstrip_drop_while s :
  PyStr.rstrip s
  = string_of_list_ascii
      (List.rev (drop_while sp (List.rev (list_ascii_of_string s)))).
Proof.
  induction s as [|c s IH]; [done|]. simpl.
  rewrite drop_while_snoc, IH.
  destruct (drop_while sp (List.rev (list_ascii_of_string s))) as [|a r] eqn:E.
  - simpl. by destruct (sp c).
  - rewrite rev_app_distr. simpl.
    destruct (List.rev r ++ [a])%list eqn:E'; [|done].
    by destruct (List.rev r).
Qed.

Lemma strip_trim s : PyStr.strip s = trim s.
Proof.
  unfold PyStr.strip, trim.
  by rewrite rstrip_drop_while, lstrip_drop_while, list_ascii_of_string_of_list_ascii.
Qed.

Lemma lstrip_head s :
  match PyStr.lstrip s with
  | EmptyString => True
  | String c _ => sp c = false
  end.
Proof.
  induction s as [|c s IH]; [done|]. simpl. by destruct (sp c) eqn:E.
Qed.

Lemma rstrip_idemp s : PyStr.rstrip (PyStr.rstrip s) = PyStr.rstrip s.
Proof.
  induction s as [|c s IH]; [done|]. simpl.
  destruct (PyStr.rstrip s) as [|a r] eqn:E.
  - destruct (sp c) eqn:Hc; [done|]. simpl. by rewrite Hc.
  - cbn [PyStr.rstrip]. cbn [PyStr.rstrip] in IH. by rewrite IH.
Qed.

Lemma lstrip_rstrip_lstrip s :
  PyStr.lstrip (PyStr.rstrip (PyStr.lstrip s)) = PyStr.rstrip (PyStr.lstrip s).
Proof.
  pose proof (lstrip_head s) as H.
  destruct (PyStr.lstrip s) as [|c x]; [done|].
  simpl. destruct (PyStr.rstrip x); rewrite ?H; simpl; by rewrite H.
Qed.

Lemma strip_idemp s : PyStr.strip (PyStr.strip s) = PyStr.strip s.
Proof.
  unfold PyStr.strip. by rewrite lstrip_rstrip_lstrip, rstrip_idemp.
Qed.
End strip_facts.

Section digest_facts.
Import Reference.
Local Open Scope Z_scope.

Lemma hex_digit_is_hex d : is_hex (SHA256.hex_digit d).
Proof.
  unfold SHA256.hex_digit, is_hex.
  assert (Z.to_nat (d mod 16) < 16)%nat as H.
  { pose proof (Z.mod_pos_bound d 16 eq_refl). lia. }
  revert H. generalize (Z.to_nat (d mod 16)). intros n Hn.
  do 16 (destruct n as [|n]; [simpl; tauto|]). lia.
Qed.

Lemma hex_word_unfold w :
  SHA256.hex_word w
  = String (SHA256.hex_digit (Z.shiftr w 28))
      (String (SHA256.hex_digit (Z.shiftr w 24))
         (String (SHA256.hex_digit (Z.shiftr w 20))
            (String (SHA256.hex_digit (Z.shiftr w 16))
               (String (SHA256.hex_digit (Z.shiftr w 12))
                  (String (SHA256.hex_digit (Z.shiftr w 8))
                     (String (SHA256.hex_digit (Z.shiftr w 4))
                        (String (SHA256.hex_digit (Z.shiftr w 0)) ""))))))).
Proof. reflexivity. Qed.

Lemma hex_word_is_hex w :
  Forall is_hex (list_ascii_of_string (SHA256.hex_word w)).
Proof.
  rewrite hex_word_unfold. simpl.
  repeat (apply Forall_cons; split; [apply hex_digit_is_hex|]). apply Forall_nil_2.
Qed.

Lemma list_ascii_of_string_app (s1 s2 : string) :
  list_ascii_of_string (s1 ++ s2)
  = (list_ascii_of_string s1 ++ list_ascii_of_string s2)%list.
Proof.
  induction s1 as [|c s1 IH]; [done|].
  change (String c s1 ++ s2)%string with (String c (s1 ++ s2)).
  simpl. by rewrite IH.
Qed.

Lemma prefix_hexdigest msg :
  PyStr.prefix 32 (SHA256.hexdigest msg) = hex_prefix (SHA256.digest msg).
Proof.
  unfold SHA256.hexdigest, hex_prefix. generalize (SHA256.digest msg). intros h.
  rewrite !hex_word_unfold. reflexivity.
Qed.

Lemma hex_prefix_length h : String.length (hex_prefix h) = 32%nat.
Proof. unfold hex_prefix. rewrite !hex_word_unfold. reflexivity. Qed.

Lemma hex_prefix_is_hex h : Forall is_hex (list_ascii_of_string (hex_prefix h)).
Proof.
  unfold hex_prefix. rewrite !list_ascii_of_string_app.
  repeat (apply Forall_app; split); apply hex_word_is_hex.
Qed.
End digest_facts.

Lemma string_app_nil_r (s : string) : s ++ "" = s.
Proof.
  induction s as [|c s IH]; [done|].
  change (String c s ++ "") with (String c (s ++ "")). by rewrite IH.
Qed.

Lemma fingerprint_eq_derive addr ua custom :
  _generate_device_fingerprint addr ua custom = Reference.derive addr ua custom.
Proof.
  unfold _generate_device_fingerprint, Reference.derive.
  rewrite prefix_hexdigest. do 3 f_equal.
  destruct ua as [[|c a]|], custom as [[|c0 cs]|];
    cbn [or_else PyStr.join List.app];
    by rewrite <- ?strip_trim, ?string_app_nil_r.
Qed.

(** C4.  [_generate_device_fingerprint] computes the reference derivation:
    the address trimmed then lowercased, the agent trimmed with "unknown"
    standing for an absent or empty agent, the custom identifier appended
    when it is present (and not empty), the parts joined by a delimiter,
    hashed by SHA-256, and the first 32 hexadecimal characters of the
    digest kept.  The key always has exactly 32 characters, all of them
    hexadecimal digits, and inputs with the same normalised address and
    agent and the same custom identifier receive the same key. *)
Theorem fingerprint_refines_reference (addr : string) (ua custom : option string) :
  _generate_device_fingerprint addr ua custom = Reference.derive addr ua custom
  ∧ String.length (_generate_device_fingerprint addr ua custom) = 32
  ∧ Forall Reference.is_hex
      (list_ascii_of_string (_generate_device_fingerprint addr ua custom))
  ∧ (∀ addr' ua',
       PyStr.lower (Reference.trim addr') = PyStr.lower (Reference.trim addr) ->
       Reference.trim (or_else ua' "unknown") = Reference.trim (or_else ua "unknown") ->
       _generate_device_fingerprint addr' ua' custom
       = _generate_device_fingerprint addr ua custom).
Proof.
  split; [apply fingerprint_eq_derive|].
  split; [|split].
  - unfold _generate_device_fingerprint. rewrite prefix_hexdigest.
    apply hex_prefix_length.
  - unfold _generate_device_fingerprint. rewrite prefix_hexdigest.
    apply hex_prefix_is_hex.
  - intros addr' ua' Haddr Hua. unfold _generate_device_fingerprint.
    rewrite <- !strip_trim in Haddr, Hua. by rewrite Haddr, Hua.
Qed.

Lemma fingerprint_refines_reference_witness :
  _generate_device_fingerprint "  10.0.0.1 " (Some " Mozilla/5.0") None
  = _generate_device_fingerprint "10.0.0.1" (Some "Mozilla/5.0 ") None.
Proof.
  apply (proj2 (proj2 (proj2
    (fingerprint_refines_reference "10.0.0.1" (Some "Mozilla/5.0 ") None)))).
  - reflexivity.
  - reflexivity.
Defined.

(** The key that [hashlib] gives for "1.2.3.4|Mozilla/5.0". *)
Example fingerprint_value :
  _generate_device_fingerprint " 1.2.3.4" (Some "Mozilla/5.0") None
  = "02d64f67a174f5a83920b988534cd610".
Proof. vm_compute. reflexivity. Qed.

(** ** Client address *)

Lemma split_nonempty sep s : PyStr.split sep s ≠ [].
Proof.
  destruct s as [|c s]; simpl; [done|].
  destruct (Ascii.eqb c sep); [done|]. by destruct (PyStr.split sep s).
Qed.

Lemma string_app_cons c (s t : string) : String c s ++ t = String c (s ++ t).
Proof. reflexivity. Qed.

(** The first part of a split is the text before the first separator. *)
Lemma split_first sep (a : string) :
  Forall (λ c, c ≠ sep) (list_ascii_of_string a) ->
  nth 0 (PyStr.split sep a) "" = a
  ∧ ∀ rest, nth 0 (PyStr.split sep (a ++ String sep rest)) "" = a.
Proof.
  induction a as [|c a IH]; intros Hno.
  - split; [done|]. intros rest. simpl. by rewrite Ascii.eqb_refl.
  - simpl in Hno. apply Forall_cons in Hno as [Hc Hno].
    destruct (IH Hno) as [IH1 IH2].
    assert (Ascii.eqb c sep = false) as Hneq by by apply Ascii.eqb_neq.
    split.
    + simpl. rewrite Hneq. pose proof (split_nonempty sep a) as Hne.
      destruct (PyStr.split sep a) as [|p ps]; [done|]. simpl in *. by rewrite IH1.
    + intros rest. rewrite string_app_cons. simpl. rewrite Hneq.
      specialize (IH2 rest). pose proof (split_nonempty sep (a ++ String sep rest)) as Hne.
      destruct (PyStr.split sep (a ++ String sep rest)) as [|p ps]; [done|].
      simpl in *. by rewrite IH2.
Qed.

Lemma fingerprint_strip addr ua custom :
  _generate_device_fingerprint (PyStr.strip addr) ua custom
  = _generate_device_fingerprint addr ua custom.
Proof. unfold _generate_device_fingerprint. by rewrite strip_idemp. Qed.

Lemma get_client_ip_forwarded headers client f :
  headers !! "x-forwarded-for" = Some f -> f ≠ "" ->
  _get_client_ip headers client = PyStr.strip (nth 0 (PyStr.split "," f) "").
Proof. unfold _get_client_ip. intros -> Hf. by destruct f. Qed.

Lemma get_client_ip_not_forwarded headers client :
  unusable (headers !! "x-forwarded-for") ->
  _get_client_ip headers client
  = match headers !! "x-real-ip" with
    | Some (String _ _ as real_ip) => PyStr.strip real_ip
    | _ => match client with Some c => host c | None => "unknown" end
    end.
Proof. unfold _get_client_ip. by intros [-> | ->]. Qed.

(** C8.  [_get_client_ip] returns the trimmed first comma-separated entry
    of a non-empty x-forwarded-for header (the text before the first
    comma); failing that the trimmed x-real-ip header when it is non-empty;
    failing that the host of the transport peer; failing that the literal
    "unknown".  Hence a request forwarded for "a, ..." receives the key of
    the bare address a: with "1.2.3.4, 5.6.6.7" the key is that of
    "1.2.3.4", which is also the key of a request without proxy headers
    whose peer is 1.2.3.4. *)
Theorem client_ip_precedence (headers : gmap string string) (client : option Address) :
  (∀ f, headers !! "x-forwarded-for" = Some f -> f ≠ "" ->
        _get_client_ip headers client = PyStr.strip (nth 0 (PyStr.split "," f) ""))
  ∧ (∀ a, Forall (λ c, c ≠ ","%char) (list_ascii_of_string a) ->
          nth 0 (PyStr.split "," a) "" = a
          ∧ ∀ rest, nth 0 (PyStr.split "," (a ++ String "," rest)) "" = a)
  ∧ (∀ r, unusable (headers !! "x-forwarded-for") ->
          headers !! "x-real-ip" = Some r -> r ≠ "" ->
          _get_client_ip headers client = PyStr.strip r)
  ∧ (∀ c, unusable (headers !! "x-forwarded-for") ->
          unusable (headers !! "x-real-ip") ->
          client = Some c ->
          _get_client_ip headers client = host c)
  ∧ (unusable (headers !! "x-forwarded-for") ->
     unusable (headers !! "x-real-ip") ->
     client = None ->
     _get_client_ip headers client = "unknown")
  ∧ (∀ a rest, Forall (λ c, c ≠ ","%char) (list_ascii_of_string a) ->
        headers !! "x-forwarded-for" = Some (a ++ String "," rest) ->
        get_device_id_from_request headers client
        = _generate_device_fingerprint a
            (Some (default "unknown" (headers !! "user-agent"))) None)
  ∧ (∀ peer_port,
        headers !! "x-forwarded-for" = Some "1.2.3.4, 5.6.6.7" ->
        get_device_id_from_request headers client
        = _generate_device_fingerprint "1.2.3.4"
            (Some (default "unknown" (headers !! "user-agent"))) None
        ∧ get_device_id_from_request headers client
          = get_device_id_from_request
              (delete "x-forwarded-for" (delete "x-real-ip" headers))
              (Some (mkAddress "1.2.3.4" peer_port))).
Proof.
  assert (∀ a rest, Forall (λ c, c ≠ ","%char) (list_ascii_of_string a) ->
        headers !! "x-forwarded-for" = Some (a ++ String "," rest) ->
        get_device_id_from_request headers client
        = _generate_device_fingerprint a
            (Some (default "unknown" (headers !! "user-agent"))) None) as Hkey.
  { intros a rest Hno Hf. unfold get_device_id_from_request.
    rewrite (get_client_ip_forwarded _ _ _ Hf) by by destruct a.
    rewrite (proj2 (split_first _ a Hno)). apply fingerprint_strip. }
  split; [apply get_client_ip_forwarded|].
  split; [apply split_first|].
  split; [|split; [|split; [|split]]].
  - intros r Hf Hr Hne. rewrite get_client_ip_not_forwarded, Hr by done.
    by destruct r.
  - intros c Hf [Hr|Hr] ->; by rewrite get_client_ip_not_forwarded, Hr.
  - intros Hf [Hr|Hr] ->; by rewrite get_client_ip_not_forwarded, Hr.
  - exact Hkey.
  - intros peer_port Hf.
    assert (get_device_id_from_request headers client
            = _generate_device_fingerprint "1.2.3.4"
                (Some (default "unknown" (headers !! "user-agent"))) None) as Heq.
    { apply (Hkey "1.2.3.4" " 5.6.6.7"); [|done].
      simpl. repeat (apply Forall_cons; split; [done|]). apply Forall_nil_2. }
    split; [exact Heq|]. rewrite Heq.
    unfold get_device_id_from_request.
    rewrite get_client_ip_not_forwarded by (left; apply lookup_delete_eq).
    rewrite lookup_delete_ne, lookup_delete_eq by done.
    by rewrite !lookup_delete_ne by done.
Qed.

Lemma client_ip_precedence_witness :
  let headers : gmap string string :=
    {[ "x-forwarded-for" := "1.2.3.4, 5.6.6.7"; "user-agent" := "Mozilla/5.0" ]} in
  get_device_id_from_request headers None
  = _generate_device_fingerprint "1.2.3.4"
      (Some (default "unknown" (headers !! "user-agent"))) None
  ∧ get_device_id_from_request headers None
    = get_device_id_from_request
        (delete "x-forwarded-for" (delete "x-real-ip" headers))
        (Some (mkAddress "1.2.3.4" 443)).
Proof.
  intros headers.
  apply (proj2 (proj2 (proj2 (proj2 (proj2 (proj2
    (client_ip_precedence headers None)))))) 443%Z).
  reflexivity.
Defined.

(** The order of preference, on examples. *)
Example client_ip_examples :
  _get_client_ip {[ "x-forwarded-for" := " 9.9.9.9 ,8.8.8.8"; "x-real-ip" := "7.7.7.7" ]}
    (Some (mkAddress "6.6.6.6" 80)) = "9.9.9.9"
  ∧ _get_client_ip {[ "x-forwarded-for" := ""; "x-real-ip" := " 7.7.7.7 " ]}
      (Some (mkAddress "6.6.6.6" 80)) = "7.7.7.7"
  ∧ _get_client_ip ∅ (Some (mkAddress "6.6.6.6" 80)) = "6.6.6.6"
  ∧ _get_client_ip ∅ None = "unknown".
Proof. vm_compute. done. Qed.

(** ** Size of the stored state *)

Lemma in_window_length now requests :
  (length (in_window now requests) <= length requests)%nat.
Proof.
  unfold in_window. induction requests as [|ts l IH]; simpl; [done|].
  destruct (Qgtb ts (now - 60)); simpl; lia.
Qed.

Lemma exec_http_requests self c self' :
  exec self c = Some self' ->
  match c with
  | CheckHttpRateLimit d now =>
      ∃ l, _http_requests self' = <[d := l]> (_http_requests self)
           ∧ ((length l <= length (default [] (_http_requests self !! d)))%nat
              ∨ (Z.of_nat (length l) <= MAX_HTTP_REQUESTS_PER_MINUTE)%Z)
  | _ => _http_requests self' = _http_requests self
  end.
Proof.
  destruct c as [d s u tc ta|d s|d now|idle now]; simpl; intros H; simplify_eq.
  - unfold register_session. destruct (negb _); [done|].
    by destruct (dd_getitem _ _ _).
  - unfold unregister_session.
    destruct (_ !! d) as [sessions|]; [|done]. by destruct (sessions !! s).
  - unfold check_http_rate_limit. rewrite check_http_rate_limit_with_eq. simpl.
    pose proof (in_window_length now (default [] (_http_requests self !! d))) as Hle.
    destruct (_ >=? _)%Z eqn:E; simpl; eexists; (split; [done|]).
    + left. lia.
    + right. rewrite length_app. simpl.
      destruct (Z.geb_spec
                  (Z.of_nat (length (in_window now (default [] (_http_requests self !! d)))))
                  MAX_HTTP_REQUESTS_PER_MINUTE); [done|]. lia.
  - by sweep_in H.
Qed.

Lemma exec_within_request_limit self c self' :
  within_request_limit self -> exec self c = Some self' ->
  within_request_limit self'.
Proof.
  intros Hinv He d' l' Hl'. apply exec_http_requests in He.
  destruct c as [d s u tc ta|d s|d now|idle now];
    try (rewrite He in Hl'; by apply (Hinv d')).
  destruct He as (l & Heq & Hl). rewrite Heq in Hl'.
  destruct (decide (d' = d)) as [->|Hne].
  - rewrite lookup_insert_eq in Hl'. simplify_eq.
    destruct Hl as [Hl|Hl]; [|done].
    destruct (_http_requests self !! d) as [l0|] eqn:E; simpl in Hl.
    + specialize (Hinv d l0 E). lia.
    + unfold MAX_HTTP_REQUESTS_PER_MINUTE. lia.
  - rewrite lookup_insert_ne in Hl' by done. by apply (Hinv d').
Qed.

Lemma exec_http_requests_dom self c self' :
  exec self c = Some self' ->
  dom (_http_requests self) ⊆ dom (_http_requests self').
Proof.
  intros He. apply exec_http_requests in He.
  destruct c as [d s u tc ta|d s|d now|idle now]; try by rewrite He.
  destruct He as (l & -> & _). apply dom_insert_subseteq.
Qed.

(** A sum over the values of a dictionary is at most its size times a
    bound on each value. *)
Lemma sum_values_bound {V} (f : V -> nat) (bound : nat) (m : gmap string V) :
  (∀ k v, m !! k = Some v -> (f v <= bound)%nat) ->
  (sum_list (f <$> (map_to_list m).*2) <= size m * bound)%nat.
Proof.
  intros H. rewrite <- length_map_to_list.
  assert (Forall (λ kv, f kv.2 <= bound)%nat (map_to_list m)) as Hall.
  { apply Forall_forall. intros [k v] Hin. apply elem_of_map_to_list in Hin.
    simpl. eauto. }
  clear H. induction Hall as [|[k v] l Hkv Hl IH]; [done|].
  rewrite !fmap_cons. simpl in *. lia.
Qed.

(** A device that made one request keeps its entry, with the timestamp,
    long after the horizon and through a sweep: the stored state exceeds
    the bound computed from the devices seen within the horizon. *)
Lemma request_state_outlives_horizon :
  let cs := [CheckHttpRateLimit "dev" 0; CleanupStaleSessions 3600 7200000000] in
  ∃ self,
    run (init MAX_SESSIONS_PER_DEVICE) cs = Some self
    ∧ devices_seen_after (7200 - 3600) cs = ∅
    ∧ _http_requests self !! "dev" = Some [0%Q]
    ∧ ¬ (Z.of_nat (stored_size self)
         <= Z.of_nat (size (devices_seen_after (7200 - 3600) cs))
            * (MAX_SESSIONS_PER_DEVICE + MAX_HTTP_REQUESTS_PER_MINUTE))%Z.
Proof.
  eexists. split; [vm_compute; reflexivity|].
  split; [by vm_compute|]. split; [by vm_compute|]. by vm_compute.
Qed.

(** C9 (amended).  In every state reached from a fresh limiter whose
    [max_sessions] is not negative, a device holds at most [max_sessions]
    session records and at most 60 request timestamps, so the stored
    state has at most (number of stored devices) x ([max_sessions] + 60)
    entries.  A sweep leaves no session record idle beyond its threshold.
    No call removes a device from [_http_requests]; the timestamps of a
    device change only in a rate-limit check of that device. *)
Theorem stored_state_bound (cap : Z) (Hcap : (0 <= cap)%Z) (cs : list call)
    (self : DeviceRateLimiter) (Hrun : run (init cap) cs = Some self) :
  (∀ d, (Z.of_nat (get_active_session_count self d) <= cap)%Z)
  ∧ (∀ d, (Z.of_nat (length (default [] (_http_requests self !! d)))
           <= MAX_HTTP_REQUESTS_PER_MINUTE)%Z)
  ∧ (Z.of_nat (stored_size self)
     <= Z.of_nat (size (devices self)) * (cap + MAX_HTTP_REQUESTS_PER_MINUTE))%Z
  ∧ (∀ idle now self' cleaned d s r,
       cleanup_stale_sessions self idle now = Some (self', cleaned) ->
       lookup_session self' d s = Some r -> is_stale now idle r = false)
  ∧ (∀ c self',
       exec self c = Some self' ->
       dom (_http_requests self) ⊆ dom (_http_requests self')
       ∧ ∀ d, (∀ now, c ≠ CheckHttpRateLimit d now) ->
              _http_requests self' !! d = _http_requests self !! d).
Proof.
  assert (max_sessions self = cap) as Hmax
    by (apply reachable_max_sessions; by exists cs).
  assert (within_cap self) as Hwc.
  { apply (run_invariant within_cap exec_within_cap cs (init cap)); [|done].
    by apply init_within_cap. }
  assert (within_request_limit self) as Hrl.
  { apply (run_invariant within_request_limit exec_within_request_limit cs (init cap));
      [|done]. intros d l Hl. simpl in Hl. by rewrite lookup_empty in Hl. }
  split; [intros d; rewrite <- Hmax; apply Hwc|].
  split.
  { intros d. destruct (_http_requests self !! d) as [l|] eqn:E; simpl.
    - by apply (Hrl d). - done. }
  split.
  { unfold stored_size, session_total, request_total, devices.
    pose proof (sum_values_bound size (Z.to_nat cap) (_active_sessions self)) as H1.
    pose proof (sum_values_bound length (Z.to_nat MAX_HTTP_REQUESTS_PER_MINUTE)
                  (_http_requests self)) as H2.
    pose proof (subseteq_size _ _
      (union_subseteq_l (dom (_active_sessions self)) (dom (_http_requests self)))) as S1.
    pose proof (subseteq_size _ _
      (union_subseteq_r (dom (_active_sessions self)) (dom (_http_requests self)))) as S2.
    rewrite size_dom in S1. rewrite size_dom in S2.
    assert (∀ k v, _active_sessions self !! k = Some v -> (size v <= Z.to_nat cap)%nat)
      as B1.
    { intros k v Hk. specialize (Hwc k). unfold get_active_session_count in Hwc.
      rewrite Hk in Hwc. simpl in Hwc. lia. }
    assert (∀ k v, _http_requests self !! k = Some v ->
                   (length v <= Z.to_nat MAX_HTTP_REQUESTS_PER_MINUTE)%nat) as B2.
    { intros k v Hk. specialize (Hrl k v Hk). lia. }
    specialize (H1 B1). specialize (H2 B2).
    unfold MAX_HTTP_REQUESTS_PER_MINUTE in *. nia. }
  split.
  { intros idle now self' cleaned d s r Hclean Hr.
    sweep_in Hclean. rewrite lookup_session_sweep in Hr.
    destruct (lookup_session self d s) as [r0|]; simpl in Hr; [|done].
    destruct (is_stale now idle r0) eqn:E; [done|]. by simplify_eq. }
  intros c self' He. split; [by apply exec_http_requests_dom in He|].
  intros d Hd. apply exec_http_requests in He.
  destruct c as [d0 s0 u tc ta|d0 s0|d0 now|idle now]; try by rewrite He.
  destruct He as (l & -> & _). rewrite lookup_insert_ne; [done|].
  intros ->. by apply (Hd now).
Qed.

Lemma stored_state_bound_witness :
  let self := (check_http_rate_limit
                 (register_session (init 8) "dev" "s1" "u" 0 0).1 "dev" 5).1 in
  (Z.of_nat (stored_size self)
   <= Z.of_nat (size (devices self)) * (8 + MAX_HTTP_REQUESTS_PER_MINUTE))%Z.
Proof.
  intros self.
  apply (proj1 (proj2 (proj2
    (stored_state_bound 8 ltac:(lia)
       [RegisterSession "dev" "s1" "u" 0 0; CheckHttpRateLimit "dev" 5]
       self eq_refl)))).
Defined.

(** ** Registrations of one device, one after the other *)

(** Whatever the order of the calls, registrations of distinct new
    sessions of one device succeed until the device is full and fail from
    then on: of [n] calls exactly [min n free_slots] return [true]. *)
Lemma register_many_exact d (requests : list (string * string * Z * Z)) :
  ∀ self,
    NoDup (requests.*1.*1.*1) ->
    (∀ s, s ∈ requests.*1.*1.*1 -> lookup_session self d s = None) ->
    let n := length requests in
    let admitted := Nat.min n (free_slots self d) in
    (register_many self d requests).2
    = (replicate admitted true ++ replicate (n - admitted) false)%list.
Proof.
  induction requests as [|[[[s u] tc] ta] requests IH]; intros self Hnd Hnew; [done|].
  rewrite !fmap_cons in Hnd, Hnew. simpl in Hnd, Hnew.
  apply NoDup_cons in Hnd as [Hs Hnd].
  cbn [register_many length snd fst].
  destruct (can_create_session self d) eqn:Hc.
  - pose proof Hc as Hlt. apply can_create_session_spec in Hlt.
    rewrite IH; [|done|].
    + rewrite register_session_accepted by done. cbn [snd fst].
      assert (free_slots (register_session self d s u tc ta).1 d
              = pred (free_slots self d)) as Hfree.
      { unfold free_slots. rewrite count_register by done.
        rewrite decide_True by done. rewrite (Hnew s) by left.
        rewrite (exec_max_sessions self (RegisterSession d s u tc ta)) by done. lia. }
      rewrite register_session_accepted in Hfree by done. cbn [fst] in Hfree.
      rewrite Hfree.
      assert (free_slots self d ≠ 0)%nat as Hpos by (unfold free_slots; lia).
      destruct (free_slots self d) as [|k]; [done|]. simpl. done.
    + intros s' Hs'. rewrite lookup_session_register by done.
      rewrite decide_False; [apply Hnew; by right|].
      intros [_ ->]. done.
  - rewrite register_session_rejected by done. cbn [snd fst].
    assert (free_slots self d = 0)%nat as Hfree.
    { apply not_true_iff_false in Hc. rewrite can_create_session_spec in Hc.
      unfold free_slots. lia. }
    rewrite IH; [|done|intros s' Hs'; apply Hnew; by right].
    rewrite Hfree, !Nat.min_0_r. simpl. by rewrite !Nat.sub_0_r.
Qed.

(** Twelve registrations for a device limited to eight sessions. *)
Example register_many_twelve :
  (register_many rate_limiter "dev"
     ((λ i, (String (ascii_of_nat (65 + i)) "", "user", 0%Z, 0%Z)) <$> seq 0 12)).2
  = (replicate 8 true ++ replicate 4 false)%list.
Proof. vm_compute. reflexivity. Qed.

(** * Further properties *)

(** ** The rate that the sliding window enforces *)

Lemma filter_filter_implies {A} (p q : A -> bool) (l : list A) :
  (∀ x, p x = true -> q x = true) ->
  List.filter p (List.filter q l) = List.filter p l.
Proof.
  intros Hpq. induction l as [|x l IH]; [done|]. simpl.
  destruct (q x) eqn:Hq; simpl.
  - by rewrite IH.
  - destruct (p x) eqn:Hp; [|done]. apply Hpq in Hp. congruence.
Qed.

Lemma filter_length_implies {A} (p q : A -> bool) (l : list A) :
  (∀ x, p x = true -> q x = true) ->
  (length (List.filter p l) <= length (List.filter q l))%nat.
Proof.
  intros Hpq. induction l as [|x l IH]; [done|]. simpl.
  destruct (p x) eqn:Hp.
  - rewrite (Hpq x Hp). simpl. lia.
  - destruct (q x); simpl; lia.
Qed.

Lemma in_window_later tp t1 (l : list Q) :
  (tp <= t1)%Q -> in_window t1 (in_window tp l) = in_window t1 l.
Proof.
  intros Hle. apply filter_filter_implies. intros a.
  rewrite !Qgtb_spec. intros H. lra.
Qed.

Lemma in_window_snoc t (l : list Q) :
  in_window t (l ++ [t]) = (in_window t l ++ [t])%list.
Proof.
  unfold in_window. rewrite List.filter_app. simpl.
  assert (Qgtb t (t - 60) = true) as -> by (apply Qgtb_spec; lra). done.
Qed.

Lemma within_window_snoc_bound (c : nat) t1 (history : list Q) :
  (∀ t, length (within_window t history) <= c)%nat ->
  (length (in_window t1 history) < c)%nat ->
  ∀ t, (length (within_window t (history ++ [t1])) <= c)%nat.
Proof.
  intros Hbound Hroom t. unfold within_window.
  rewrite List.filter_app, length_app.
  simpl. destruct (Qgtb t1 (t - 60) && Qle_bool t1 t) eqn:Hin; simpl.
  - apply andb_true_iff in Hin as [_ Hle]. apply Qle_bool_iff in Hle.
    pose proof (filter_length_implies
                  (λ a, Qgtb a (t - 60) && Qle_bool a t)
                  (λ ts, Qgtb ts (t1 - 60)) history) as Hmono.
    unfold in_window in Hroom.
    assert (∀ x, Qgtb x (t - 60) && Qle_bool x t = true -> Qgtb x (t1 - 60) = true)
      as Himpl.
    { intros a Ha. apply andb_true_iff in Ha as [Ha _].
      apply Qgtb_spec in Ha. apply Qgtb_spec. lra. }
    specialize (Hmono Himpl). lia.
  - specialize (Hbound t). unfold within_window in Hbound. lia.
Qed.

Lemma check_many_rate (c : nat) d (times : list Q) :
  ∀ self (history : list Q) tp,
    default [] (_http_requests self !! d) = in_window tp history ->
    (∀ t, length (within_window t history) <= c)%nat ->
    nondecreasing (tp :: times) ->
    ∀ t, (length (within_window t
             (history ++ admitted times (check_many (Z.of_nat c) self d times).2))
          <= c)%nat.
Proof.
  induction times as [|t1 times IH]; intros self history tp Hstored Hbound Hmono t.
  - simpl. rewrite app_nil_r. apply Hbound.
  - destruct Hmono as [Hle Hmono].
    cbn [check_many snd fst]. rewrite check_http_rate_limit_with_eq.
    cbv zeta. rewrite Hstored, in_window_later by done.
    destruct (Z.of_nat (length (in_window t1 history)) >=? Z.of_nat c)%Z eqn:Hfull;
      cbn [admitted snd fst].
    + apply (IH _ history t1); [|done|done].
      simpl. by rewrite lookup_insert_eq.
    + assert (length (in_window t1 history) < c)%nat as Hroom.
      { destruct (Z.geb_spec (Z.of_nat (length (in_window t1 history))) (Z.of_nat c));
          [done|lia]. }
      replace (history ++ t1 :: admitted times
                 (check_many (Z.of_nat c)
                    (set_http_requests
                       (<[d:=(in_window t1 history ++ [t1])%list]> (_http_requests self))
                       self) d times).2)%list
        with ((history ++ [t1]) ++ admitted times
                 (check_many (Z.of_nat c)
                    (set_http_requests
                       (<[d:=(in_window t1 history ++ [t1])%list]> (_http_requests self))
                       self) d times).2)%list
        by (by rewrite <- app_assoc).
      apply (IH _ (history ++ [t1])%list t1); [| |done].
      * simpl. rewrite lookup_insert_eq. simpl. symmetry. apply in_window_snoc.
      * by apply within_window_snoc_bound.
Qed.

(** X1.  For a device without stored request timestamps and calls whose
    clock readings never go back, [check_http_rate_limit] with capacity
    [c] admits at most [c] calls in any window (t - 60, t]: the
    admitted readings that fall in one window are never more than [c]. *)
Theorem sliding_window_rate_bound (c : nat) (self : DeviceRateLimiter)
    (d : string) (times : list Q) :
  default [] (_http_requests self !! d) = [] ->
  nondecreasing times ->
  ∀ t, (length (within_window t
           (admitted times (check_many (Z.of_nat c) self d times).2)) <= c)%nat.
Proof.
  intros Hfresh Hmono t.
  destruct times as [|t1 times]; [simpl; lia|].
  apply (check_many_rate c d (t1 :: times) self [] t1); [done| |].
  - intros t'. simpl. lia.
  - split; [lra|done].
Qed.

Lemma sliding_window_rate_bound_witness :
  (length (within_window 61
     (admitted [0; 1; 2; 3; 60.5; 61]%Q
        (check_many 3 (init 8) "dev" [0; 1; 2; 3; 60.5; 61]%Q).2)) <= 3)%nat.
Proof.
  apply (sliding_window_rate_bound 3 (init 8) "dev" [0; 1; 2; 3; 60.5; 61]%Q).
  - reflexivity.
  - simpl. repeat split; by apply Qle_bool_imp_le.
Defined.

(** ** Registering and releasing *)

Lemma lookup_session_Some self d s r :
  lookup_session self d s = Some r ->
  ∃ sessions, _active_sessions self !! d = Some sessions ∧ sessions !! s = Some r.
Proof.
  unfold lookup_session.
  destruct (_active_sessions self !! d) as [sessions|]; simpl; [|done]. eauto.
Qed.

Lemma count_positive self d s :
  is_Some (lookup_session self d s) -> (0 < get_active_session_count self d)%nat.
Proof.
  intros [r Hr]. apply lookup_session_Some in Hr as (sessions & Hd & Hs).
  unfold get_active_session_count. rewrite Hd. simpl.
  assert (size sessions ≠ 0)%nat by (apply (map_size_ne_0_lookup_2 sessions s); eauto).
  lia.
Qed.

(** X2.  In a state without empty device entries, registering a session
    that the device does not have yet and unregistering it again gives
    back exactly the state before the registration: no trace of the
    session or of the device remains. *)
Theorem register_unregister_roundtrip (self : DeviceRateLimiter)
    (d s u : string) (tc ta : Z) :
  no_empty_entries self ->
  can_create_session self d = true ->
  lookup_session self d s = None ->
  unregister_session (register_session self d s u tc ta).1 d s = (self, true).
Proof.
  intros Hne Hc Hnew. rewrite register_session_accepted by done. simpl.
  unfold unregister_session. simpl.
  rewrite lookup_insert_eq, lookup_insert_eq, insert_insert_eq.
  unfold lookup_session in Hnew.
  destruct (_active_sessions self !! d) as [sessions|] eqn:Hd; simpl in *.
  - rewrite delete_insert_id by done.
    destruct (size sessions =? 0)%nat eqn:Hsz.
    + apply size_eqb_0 in Hsz. subst sessions. by destruct (Hne d).
    + rewrite insert_id by done. by destruct self.
  - rewrite delete_insert_id by apply lookup_empty.
    rewrite map_size_empty. simpl. rewrite delete_insert_id by done.
    by destruct self.
Qed.

Lemma register_unregister_roundtrip_witness :
  unregister_session
    (register_session (register_session (init 8) "dev" "s1" "u" 0 0).1
       "dev" "s2" "u" 1 1).1 "dev" "s2"
  = ((register_session (init 8) "dev" "s1" "u" 0 0).1, true).
Proof.
  apply register_unregister_roundtrip.
  - apply (reachable_no_empty_entries 8).
    by exists [RegisterSession "dev" "s1" "u" 0 0].
  - reflexivity.
  - reflexivity.
Defined.

(** X3.  In a state that respects the cap, releasing any session that a
    device holds makes room: [can_create_session] holds for the device
    afterwards, even if the device was full.  This is what the
    [retry_after] text of the rate-limit response promises. *)
Theorem unregister_frees_slot (self : DeviceRateLimiter) (d s : string) :
  within_cap self ->
  is_Some (lookup_session self d s) ->
  can_create_session (unregister_session self d s).1 d = true.
Proof.
  intros Hcap Hs. apply can_create_session_spec.
  rewrite (exec_max_sessions self (UnregisterSession d s)) by done.
  rewrite count_unregister, decide_True by done.
  pose proof (count_positive _ _ _ Hs) as Hpos. specialize (Hcap d).
  destruct Hs as [r ->]. lia.
Qed.

Lemma unregister_frees_slot_witness :
  can_create_session
    (unregister_session (register_session (init 1) "dev" "s1" "u" 0 0).1
       "dev" "s1").1 "dev" = true.
Proof.
  apply unregister_frees_slot.
  - apply (run_invariant within_cap exec_within_cap
             [RegisterSession "dev" "s1" "u" 0 0] (init 1)); [|reflexivity].
    apply init_within_cap. lia.
  - by eexists.
Defined.

(** ** Sweeps, one after the other *)

Lemma is_stale_Z now idle r :
  is_stale now idle r = true <-> (idle * 1000000 < now - last_activity r)%Z.
Proof.
  rewrite is_stale_spec. unfold total_seconds, Qlt. simpl. lia.
Qed.

Lemma is_stale_later now1 now2 idle r :
  (now1 <= now2)%Z -> is_stale now1 idle r = true -> is_stale now2 idle r = true.
Proof. rewrite !is_stale_Z. lia. Qed.

Lemma kept_sessions_later now1 now2 idle (v : gmap string SessionInfo) :
  (now1 <= now2)%Z ->
  kept_sessions now2 idle (kept_sessions now1 idle v) = kept_sessions now2 idle v.
Proof.
  intros Hle. apply map_eq. intros s. rewrite !lookup_kept_sessions.
  destruct (v !! s) as [r|]; simpl; [|done].
  destruct (is_stale now1 idle r) eqn:H1; simpl; [|done].
  by rewrite (is_stale_later now1 now2 idle r Hle H1).
Qed.

Lemma sweep_entry_later now1 now2 idle (v : gmap string SessionInfo) :
  (now1 <= now2)%Z ->
  sweep_entry now1 idle v ≫= sweep_entry now2 idle = sweep_entry now2 idle v.
Proof.
  intros Hle. unfold sweep_entry. cbv zeta.
  destruct (size (kept_sessions now1 idle v) =? 0)%nat eqn:Hsz; simpl.
  - apply size_eqb_0 in Hsz.
    assert (kept_sessions now2 idle v = ∅) as Hempty.
    { rewrite <- (kept_sessions_later now1 now2 idle v Hle), Hsz.
      apply map_filter_empty. }
    by rewrite Hempty, map_size_empty.
  - by rewrite kept_sessions_later.
Qed.

Lemma sweep_later now1 now2 idle (m : gmap string (gmap string SessionInfo)) :
  (now1 <= now2)%Z ->
  omap (sweep_entry now2 idle) (omap (sweep_entry now1 idle) m)
  = omap (sweep_entry now2 idle) m.
Proof.
  intros Hle. apply map_eq. intros k. rewrite !lookup_omap.
  destruct (m !! k) as [v|]; simpl; [|done]. by apply sweep_entry_later.
Qed.

(** X4.  Two sweeps with the same threshold, the second at the same or a
    later clock reading, leave the state that one sweep at the later
    reading leaves, and their counts add up to its count.  In
    particular a sweep repeated at the same reading returns 0 and changes
    nothing. *)
Theorem cleanup_stale_sessions_twice (self self1 self2 : DeviceRateLimiter)
    (max_idle_seconds now1 now2 : Z) (n1 n2 : nat) :
  (now1 <= now2)%Z ->
  cleanup_stale_sessions self max_idle_seconds now1 = Some (self1, n1) ->
  cleanup_stale_sessions self1 max_idle_seconds now2 = Some (self2, n2) ->
  cleanup_stale_sessions self max_idle_seconds now2 = Some (self2, n1 + n2)
  ∧ cleanup_stale_sessions self1 max_idle_seconds now1 = Some (self1, 0).
Proof.
  intros Hle H1 H2.
  destruct (cleanup_stale_sessions_eq now1 max_idle_seconds self) as (m1 & E1 & C1).
  rewrite E1 in H1. simplify_eq.
  destruct (cleanup_stale_sessions_eq now2 max_idle_seconds
              (set_active_sessions
                 (omap (sweep_entry now1 max_idle_seconds) (_active_sessions self)) self))
    as (m2 & E2 & C2).
  rewrite E2 in H2. simplify_eq.
  destruct (cleanup_stale_sessions_eq now2 max_idle_seconds self) as (m & E & C).
  destruct (cleanup_stale_sessions_eq now1 max_idle_seconds
              (set_active_sessions
                 (omap (sweep_entry now1 max_idle_seconds) (_active_sessions self)) self))
    as (m0 & E0 & C0).
  cbn [_active_sessions set_active_sessions] in C0, C2, E0.
  rewrite sweep_later in C0, E0 by lia.
  rewrite sweep_later in C2 by done.
  split.
  - rewrite E. unfold set_active_sessions.
    cbn [_active_sessions max_sessions _http_requests].
    rewrite sweep_later by done. do 2 f_equal. lia.
  - rewrite E0. unfold set_active_sessions.
    cbn [_active_sessions max_sessions _http_requests]. do 2 f_equal. lia.
Qed.

Lemma cleanup_stale_sessions_twice_witness :
  let self := (register_session (register_session (init 8) "a" "s1" "u" 0 0).1
                 "b" "s2" "u" 5000000 5000000).1 in
  ∃ self1 self2,
    cleanup_stale_sessions self 10 12000000 = Some (self1, 1)
    ∧ cleanup_stale_sessions self1 10 16000000 = Some (self2, 1)
    ∧ cleanup_stale_sessions self 10 16000000 = Some (self2, 1 + 1).
Proof.
  intros self.
  destruct (cleanup_stale_sessions self 10 12000000) as [[self1 n1]|] eqn:E1;
    [|by vm_compute in E1].
  destruct (cleanup_stale_sessions self1 10 16000000) as [[self2 n2]|] eqn:E2.
  2:{ destruct (cleanup_stale_sessions_eq 16000000 10 self1) as (n & E & _).
      congruence. }
  assert (n1 = 1%nat) as ->.
  { vm_compute in E1. by injection E1. }
  assert (n2 = 1%nat) as ->.
  { vm_compute in E1. injection E1 as <-. vm_compute in E2. by injection E2. }
  exists self1, self2. split; [done|]. split; [done|].
  apply (proj1 (cleanup_stale_sessions_twice self self1 self2 10 12000000 16000000
                  1 1 ltac:(lia) E1 E2)).
Defined.

(** ** A limiter that admits nothing *)

Lemma exec_registry_stays_empty self c self' :
  (max_sessions self <= 0)%Z ->
  _active_sessions self = ∅ ->
  exec self c = Some self' ->
  _active_sessions self' = ∅.
Proof.
  intros Hcap Hempty He.
  destruct c as [d s u tc ta|d s|d now|idle now]; simpl in He; simplify_eq.
  - rewrite register_session_rejected; [done|].
    apply not_true_iff_false. rewrite can_create_session_spec. lia.
  - rewrite unregister_session_absent; [done|].
    unfold lookup_session. by rewrite Hempty, lookup_empty.
  - unfold check_http_rate_limit.
    by rewrite (proj1 (check_http_rate_limit_with_registry _ _ _ _)).
  - sweep_in He. simpl. rewrite Hempty. apply omap_empty.
Qed.

(** X5.  A limiter built with [max_sessions] zero or negative never
    stores a session: in every state reached from it the registry is
    empty, every registration is refused and every count is 0. *)
Theorem nonpositive_cap_admits_nothing (cap : Z) (self : DeviceRateLimiter) :
  (cap <= 0)%Z ->
  reachable cap self ->
  _active_sessions self = ∅
  ∧ (∀ d, get_active_session_count self d = 0%nat)
  ∧ (∀ d s u tc ta, register_session self d s u tc ta = (self, false)).
Proof.
  intros Hcap Hreach.
  pose proof (reachable_max_sessions _ _ Hreach) as Hmax.
  assert ((max_sessions self <= 0)%Z ∧ _active_sessions self = ∅) as [_ Hempty].
  { destruct Hreach as [cs Hrun].
    apply (run_invariant
             (λ st, (max_sessions st <= 0)%Z ∧ _active_sessions st = ∅)
             ) with cs (init cap); [|by split|done].
    intros st c st' [H1 H2] He. split.
    - by rewrite (exec_max_sessions _ _ _ He).
    - by apply (exec_registry_stays_empty st c). }
  split; [done|]. split.
  - intros d. unfold get_active_session_count. by rewrite Hempty, lookup_empty.
  - intros d s u tc ta. apply register_session_rejected.
    apply not_true_iff_false. rewrite can_create_session_spec. lia.
Qed.

Lemma nonpositive_cap_admits_nothing_witness :
  register_session (init 0) "dev" "s" "u" 0 0 = (init 0, false).
Proof.
  apply (nonpositive_cap_admits_nothing 0 (init 0)); [lia|].
  by exists [].
Defined.

(** ** Statistics *)

Lemma sum_values_lower {V} (f : V -> nat) (m : gmap string V) :
  (∀ k v, m !! k = Some v -> (1 <= f v)%nat) ->
  (size m <= sum_list (f <$> (map_to_list m).*2))%nat.
Proof.
  intros H. rewrite <- length_map_to_list.
  assert (Forall (λ kv, 1 <= f kv.2)%nat (map_to_list m)) as Hall.
  { apply Forall_forall. intros [k v] Hin. apply elem_of_map_to_list in Hin.
    simpl. eauto. }
  clear H. induction Hall as [|[k v] l Hkv Hl IH]; [done|].
  rewrite !fmap_cons. simpl in *. lia.
Qed.

(** X6.  In every state reached from a fresh limiter with a non-negative
    [max_sessions], [get_stats] reports at least one session per stored
    device and at most [max_sessions] sessions per stored device:
    total_devices <= total_sessions <= total_devices x max_sessions. *)
Theorem get_stats_bounds (cap : Z) (self : DeviceRateLimiter) :
  (0 <= cap)%Z ->
  reachable cap self ->
  (total_devices (get_stats self) <= total_sessions (get_stats self))%nat
  ∧ (Z.of_nat (total_sessions (get_stats self))
     <= Z.of_nat (total_devices (get_stats self)) * cap)%Z
  ∧ max_sessions_per_device (get_stats self) = cap.
Proof.
  intros Hcap Hreach.
  pose proof (reachable_no_empty_entries _ _ Hreach) as Hne.
  pose proof (reachable_max_sessions _ _ Hreach) as Hmax.
  assert (within_cap self) as Hwc.
  { destruct Hreach as [cs Hrun].
    apply (run_invariant within_cap exec_within_cap cs (init cap)); [|done].
    by apply init_within_cap. }
  unfold get_stats. simpl. split; [|split; [|done]].
  - apply sum_values_lower. intros k v Hk.
    assert (size v ≠ 0)%nat; [|lia].
    apply map_size_non_empty_iff. intros ->. by destruct (Hne k).
  - pose proof (sum_values_bound size (Z.to_nat cap) (_active_sessions self)) as H.
    assert (∀ k v, _active_sessions self !! k = Some v -> (size v <= Z.to_nat cap)%nat)
      as B.
    { intros k v Hk. specialize (Hwc k). unfold get_active_session_count in Hwc.
      rewrite Hk in Hwc. simpl in Hwc. lia. }
    specialize (H B). nia.
Qed.

Lemma get_stats_bounds_witness :
  let self := (register_session (register_session (init 8) "a" "s1" "u" 0 0).1
                 "a" "s2" "u" 1 1).1 in
  (total_devices (get_stats self) <= total_sessions (get_stats self))%nat
  ∧ (Z.of_nat (total_sessions (get_stats self))
     <= Z.of_nat (total_devices (get_stats self)) * 8)%Z
  ∧ max_sessions_per_device (get_stats self) = 8%Z.
Proof.
  intros self. apply (get_stats_bounds 8 self); [lia|].
  by exists [RegisterSession "a" "s1" "u" 0 0; RegisterSession "a" "s2" "u" 1 1].
Defined.

(** X7.  [get_stats] follows the registry: an admitted registration of a
    session that the device does not have adds exactly one to
    total_sessions, and one to total_devices exactly when the device had
    no entry; releasing a stored session takes exactly one from
    total_sessions. *)
Theorem get_stats_tracks_registry (self : DeviceRateLimiter) (d s : string) :
  (∀ u tc ta,
      can_create_session self d = true ->
      lookup_session self d s = None ->
      let self' := (register_session self d s u tc ta).1 in
      total_sessions (get_stats self') = S (total_sessions (get_stats self))
      ∧ total_devices (get_stats self')
        = match _active_sessions self !! d with
          | Some _ => total_devices (get_stats self)
          | None => S (total_devices (get_stats self))
          end)
  ∧ (is_Some (lookup_session self d s) ->
     S (total_sessions (get_stats (unregister_session self d s).1))
     = total_sessions (get_stats self)).
Proof.
  split.
  - intros u tc ta Hc Hnew self'. subst self'.
    rewrite register_session_accepted by done. unfold get_stats. simpl.
    fold (session_total (_active_sessions self)).
    fold (session_total
            (<[d:=<[s:=mkSessionInfo s u tc ta]> (default ∅ (_active_sessions self !! d))]>
               (_active_sessions self))).
    unfold lookup_session in Hnew. rewrite map_size_insert.
    destruct (_active_sessions self !! d) as [v|] eqn:Hd; simpl in *.
    + split; [|done].
      pose proof (session_total_insert_Some (_active_sessions self) d v
                    (<[s:=mkSessionInfo s u tc ta]> v) Hd) as H.
      rewrite map_size_insert_None in H by done. lia.
    + split; [|done]. rewrite session_total_insert_None by done.
      by rewrite map_size_insert_None, map_size_empty by apply lookup_empty.
  - intros [r Hr].
    destruct (unregister_session_present _ _ _ _ Hr) as (v & Hd & Hs & ->).
    unfold get_stats. simpl.
    fold (session_total (_active_sessions self)).
    assert (size v ≠ 0)%nat as Hpos by (apply (map_size_ne_0_lookup_2 v s); eauto).
    destruct (size (delete s v) =? 0)%nat eqn:Hsz.
    + fold (session_total (delete d (_active_sessions self))).
      rewrite (session_total_delete _ _ _ Hd).
      apply Nat.eqb_eq in Hsz. rewrite map_size_delete_Some in Hsz by eauto. lia.
    + fold (session_total (<[d:=delete s v]> (_active_sessions self))).
      pose proof (session_total_insert_Some (_active_sessions self) d v
                    (delete s v) Hd) as H.
      rewrite map_size_delete_Some in H by eauto. lia.
Qed.

Lemma get_stats_tracks_registry_witness :
  S (total_sessions
       (get_stats (unregister_session
                     (register_session (init 8) "a" "s1" "u" 0 0).1 "a" "s1").1))
  = total_sessions (get_stats (register_session (init 8) "a" "s1" "u" 0 0).1).
Proof.
  apply (proj2 (get_stats_tracks_registry
                  (register_session (init 8) "a" "s1" "u" 0 0).1 "a" "s1")).
  by eexists.
Defined.

(** ** Admission check and limit response *)

Lemma reachable_within_cap cap self :
  (0 <= cap)%Z -> reachable cap self -> within_cap self.
Proof.
  intros Hcap [cs Hrun].
  apply (run_invariant within_cap exec_within_cap cs (init cap)); [|done].
  by apply init_within_cap.
Qed.

(** X8.  On a state reached by the global [rate_limiter],
    [check_session_limit] returns the fingerprint of the connection
    exactly when the device holds fewer than 8 sessions, and a
    registration for the returned device id made in that state is
    admitted; otherwise it raises status 429 with "current" equal to 8,
    and a registration made in that state is refused. *)
Theorem check_session_limit_spec (limiter : DeviceRateLimiter) (websocket : WebSocket) :
  reachable MAX_SESSIONS_PER_DEVICE limiter ->
  let device_id :=
    get_device_id_from_websocket (ws_headers websocket) (ws_client websocket) in
  match check_session_limit limiter websocket with
  | inr returned =>
      returned = device_id
      ∧ (get_active_session_count limiter device_id < 8)%nat
      ∧ ∀ s u tc ta, (register_session limiter returned s u tc ta).2 = true
  | inl raised =>
      exc_status_code raised = 429%Z
      ∧ detail_error (exc_detail raised) = "session_limit_exceeded"
      ∧ detail_message (exc_detail raised) = "Maximum 8 sessions per device"
      ∧ detail_current (exc_detail raised) = 8%nat
      ∧ get_active_session_count limiter device_id = 8%nat
      ∧ ∀ s u tc ta, register_session limiter device_id s u tc ta = (limiter, false)
  end.
Proof.
  intros Hreach device_id.
  pose proof (reachable_max_sessions _ _ Hreach) as Hmax.
  assert (0 <= MAX_SESSIONS_PER_DEVICE)%Z as Hpos by done.
  pose proof (reachable_within_cap _ _ Hpos Hreach device_id) as Hcap.
  unfold check_session_limit. fold device_id.
  destruct (can_create_session limiter device_id) eqn:Hc; simpl.
  - split; [done|]. pose proof Hc as Hlt. apply can_create_session_spec in Hlt.
    rewrite Hmax in Hlt. unfold MAX_SESSIONS_PER_DEVICE in Hlt.
    split; [lia|]. intros s u tc ta. by rewrite register_session_accepted.
  - assert (get_active_session_count limiter device_id = 8%nat) as Hfull.
    { apply not_true_iff_false in Hc. rewrite can_create_session_spec in Hc.
      rewrite Hmax in Hc, Hcap. unfold MAX_SESSIONS_PER_DEVICE in *. lia. }
    repeat split; try done. intros s u tc ta. by apply register_session_rejected.
Qed.

Lemma check_session_limit_spec_witness :
  match check_session_limit rate_limiter (mkWebSocket ∅ None) with
  | inr returned =>
      returned = get_device_id_from_websocket ∅ None
      ∧ (get_active_session_count rate_limiter (get_device_id_from_websocket ∅ None) < 8)%nat
      ∧ ∀ s u tc ta, (register_session rate_limiter returned s u tc ta).2 = true
  | inl raised =>
      exc_status_code raised = 429%Z
      ∧ detail_error (exc_detail raised) = "session_limit_exceeded"
      ∧ detail_message (exc_detail raised) = "Maximum 8 sessions per device"
      ∧ detail_current (exc_detail raised) = 8%nat
      ∧ get_active_session_count rate_limiter (get_device_id_from_websocket ∅ None) = 8%nat
      ∧ ∀ s u tc ta,
          register_session rate_limiter (get_device_id_from_websocket ∅ None) s u tc ta
          = (rate_limiter, false)
  end.
Proof.
  apply (check_session_limit_spec rate_limiter (mkWebSocket ∅ None)).
  by exists [].
Defined.

(** X9.  [get_rate_limit_error_response] always has status 429 and
    reports the device's count and the limiter's [max_sessions]; in a
    state that respects the cap the reported count never exceeds the
    reported maximum, and for a device that [can_create_session] refuses
    the two are equal. *)
Theorem rate_limit_response_counts (self : DeviceRateLimiter) (d : string) :
  within_cap self ->
  let response := get_rate_limit_error_response self d in
  status_code response = 429%Z
  ∧ content_error (content response) = "rate_limit_exceeded"
  ∧ content_current_sessions (content response) = get_active_session_count self d
  ∧ content_max_sessions (content response) = max_sessions self
  ∧ (Z.of_nat (content_current_sessions (content response))
     <= content_max_sessions (content response))%Z
  ∧ (can_create_session self d = false ->
     Z.of_nat (content_current_sessions (content response))
     = content_max_sessions (content response)).
Proof.
  intros Hcap response. subst response. simpl.
  do 4 (split; [done|]). split; [apply Hcap|].
  intros Hc. apply not_true_iff_false in Hc. rewrite can_create_session_spec in Hc.
  specialize (Hcap d). lia.
Qed.

Lemma rate_limit_response_counts_witness :
  let self := (register_session (init 1) "dev" "s1" "u" 0 0).1 in
  Z.of_nat (content_current_sessions (content (get_rate_limit_error_response self "dev")))
  = content_max_sessions (content (get_rate_limit_error_response self "dev")).
Proof.
  intros self.
  refine (proj2 (proj2 (proj2 (proj2 (proj2
    (rate_limit_response_counts self "dev" _))))) _).
  - apply (reachable_within_cap 1); [lia|].
    by exists [RegisterSession "dev" "s1" "u" 0 0].
  - reflexivity.
Defined.

(** ** What the fingerprint does not distinguish *)

Lemma get_client_ip_ext (h1 h2 : gmap string string) client :
  h1 !! "x-forwarded-for" = h2 !! "x-forwarded-for" ->
  h1 !! "x-real-ip" = h2 !! "x-real-ip" ->
  _get_client_ip h1 client = _get_client_ip h2 client.
Proof. unfold _get_client_ip. by intros -> ->. Qed.

(** X10.  A request without a user-agent header, one whose user-agent is
    empty, and one whose user-agent trims to the text "unknown" all
    receive the same device key. *)
Theorem missing_user_agent_is_unknown (headers : gmap string string)
    (client : option Address) (ua : string) :
  PyStr.strip ua = "unknown" ->
  get_device_id_from_request (delete "user-agent" headers) client
  = get_device_id_from_request (<["user-agent" := ua]> headers) client
  ∧ get_device_id_from_request (<["user-agent" := ""]> headers) client
    = get_device_id_from_request (<["user-agent" := ua]> headers) client.
Proof.
  intros Hua. unfold get_device_id_from_request.
  rewrite lookup_delete_eq, !lookup_insert_eq. simpl.
  rewrite (get_client_ip_ext (delete "user-agent" headers)
             (<["user-agent" := ua]> headers))
    by (by rewrite lookup_delete_ne, lookup_insert_ne).
  rewrite (get_client_ip_ext (<["user-agent" := ""]> headers)
             (<["user-agent" := ua]> headers))
    by (by rewrite !lookup_insert_ne).
  assert (_generate_device_fingerprint
            (_get_client_ip (<["user-agent" := ua]> headers) client) (Some ua) None
          = _generate_device_fingerprint
              (_get_client_ip (<["user-agent" := ua]> headers) client)
              (Some "unknown") None) as ->.
  { unfold _generate_device_fingerprint. destruct ua as [|c ua]; [done|].
    cbn [or_else]. by rewrite Hua. }
  done.
Qed.

Lemma missing_user_agent_is_unknown_witness :
  get_device_id_from_request (delete "user-agent" ∅) None
  = get_device_id_from_request (<["user-agent" := " unknown "]> ∅) None.
Proof.
  apply (proj1 (missing_user_agent_is_unknown ∅ None " unknown " eq_refl)).
Defined.

Lemma isspace_lower_char c : PyStr.isspace (PyStr.lower_char c) = PyStr.isspace c.
Proof. by destruct c as [[] [] [] [] [] [] [] []]. Qed.

Lemma lstrip_lower s : PyStr.lstrip (PyStr.lower s) = PyStr.lower (PyStr.lstrip s).
Proof.
  induction s as [|c s IH]; [done|]. simpl. rewrite isspace_lower_char.
  by destruct (PyStr.isspace c).
Qed.

Lemma rstrip_lower s : PyStr.rstrip (PyStr.lower s) = PyStr.lower (PyStr.rstrip s).
Proof.
  induction s as [|c s IH]; [done|]. simpl. rewrite IH, isspace_lower_char.
  destruct (PyStr.rstrip s); simpl; [|done]. by destruct (PyStr.isspace c).
Qed.

Lemma strip_lower s : PyStr.strip (PyStr.lower s) = PyStr.lower (PyStr.strip s).
Proof. unfold PyStr.strip. by rewrite lstrip_lower, rstrip_lower. Qed.

(** X11.  The device key does not depend on the letter case of the
    address: two addresses with the same lowercase form receive the same
    key, whatever the agent and the custom identifier. *)
Theorem fingerprint_ignores_address_case (a b : string) (ua custom : option string) :
  PyStr.lower a = PyStr.lower b ->
  _generate_device_fingerprint a ua custom = _generate_device_fingerprint b ua custom.
Proof.
  intros Hab. unfold _generate_device_fingerprint.
  by rewrite <- !strip_lower, Hab.
Qed.

Lemma fingerprint_ignores_address_case_witness :
  _generate_device_fingerprint "FE80::1" (Some "curl") None
  = _generate_device_fingerprint "fe80::1" (Some "curl") None.
Proof.
  apply fingerprint_ignores_address_case. reflexivity.
Defined.

Lemma lstrip_app_id (x y : string) :
  x ≠ "" -> PyStr.lstrip x = x -> PyStr.lstrip (x ++ y) = x ++ y.
Proof.
  intros Hne Hx. pose proof (lstrip_head x) as Hhead. rewrite Hx in Hhead.
  destruct x as [|c x]; [done|]. rewrite string_app_cons. simpl. by rewrite Hhead.
Qed.

Lemma rstrip_app_id (x y : string) :
  y ≠ "" -> PyStr.rstrip y = y -> PyStr.rstrip (x ++ y) = x ++ y.
Proof.
  intros Hne Hy. induction x as [|c x IH]; [done|].
  rewrite string_app_cons. simpl. rewrite IH.
  destruct (x ++ y) eqn:E; [|done].
  destruct x as [|c' x']; [by change (y = "") in E|by rewrite string_app_cons in E].
Qed.

(** X12.  The parts of the composite are joined by "|" without escaping,
    so the custom identifier is not told apart from the end of the agent:
    for a trimmed non-empty agent and a trimmed non-empty custom
    identifier, the key with that custom identifier is the key of the
    agent followed by "|" and the identifier, without custom identifier. *)
Theorem fingerprint_delimiter_ambiguity (ip ua custom : string) :
  ua ≠ "" -> PyStr.strip ua = ua ->
  custom ≠ "" -> PyStr.strip custom = custom ->
  _generate_device_fingerprint ip (Some ua) (Some custom)
  = _generate_device_fingerprint ip (Some (ua ++ "|" ++ custom)) None.
Proof.
  intros Hua Hsua Hc Hsc.
  assert (PyStr.lstrip ua = ua) as Hl.
  { rewrite <- Hsua at 1. unfold PyStr.strip.
    rewrite lstrip_rstrip_lstrip. exact Hsua. }
  assert (PyStr.rstrip custom = custom) as Hr.
  { rewrite <- Hsc at 1. unfold PyStr.strip. rewrite rstrip_idemp. exact Hsc. }
  assert (PyStr.strip (ua ++ "|" ++ custom) = ua ++ "|" ++ custom) as Hwhole.
  { unfold PyStr.strip. rewrite lstrip_app_id by done.
    apply rstrip_app_id.
    - by destruct custom.
    - by apply (rstrip_app_id "|"). }
  unfold _generate_device_fingerprint.
  destruct ua as [|a ua]; [done|]. destruct custom as [|c custom]; [done|].
  rewrite (string_app_cons a ua) in Hwhole |- *.
  cbn [or_else]. rewrite Hwhole, Hsua. reflexivity.
Qed.

Lemma fingerprint_delimiter_ambiguity_witness :
  _generate_device_fingerprint "1.2.3.4" (Some "curl") (Some "tab-7")
  = _generate_device_fingerprint "1.2.3.4" (Some "curl|tab-7") None.
Proof.
  apply (fingerprint_delimiter_ambiguity "1.2.3.4" "curl" "tab-7"); done.
Defined.

(** ** Splitting, joining and encoding *)

Section chars.
Variable P : ascii -> Prop.

Lemma lstrip_Forall s :
  Forall P (list_ascii_of_string s) ->
  Forall P (list_ascii_of_string (PyStr.lstrip s)).
Proof.
  induction s as [|c s IH]; [done|]. simpl. intros H.
  apply Forall_cons in H as [Hc Hs].
  destruct (PyStr.isspace c); [by apply IH|]. simpl. by apply Forall_cons.
Qed.

Lemma rstrip_Forall s :
  Forall P (list_ascii_of_string s) ->
  Forall P (list_ascii_of_string (PyStr.rstrip s)).
Proof.
  induction s as [|c s IH]; [done|]. simpl. intros H.
  apply Forall_cons in H as [Hc Hs]. specialize (IH Hs).
  destruct (PyStr.rstrip s) as [|a r].
  - destruct (PyStr.isspace c); simpl; [done|]. by apply Forall_cons.
  - simpl. by apply Forall_cons.
Qed.

Lemma strip_Forall s :
  Forall P (list_ascii_of_string s) ->
  Forall P (list_ascii_of_string (PyStr.strip s)).
Proof. intros H. unfold PyStr.strip. by apply rstrip_Forall, lstrip_Forall. Qed.
End chars.

Lemma split_head_no_sep sep s :
  Forall (λ c, c ≠ sep) (list_ascii_of_string (nth 0 (PyStr.split sep s) "")).
Proof.
  induction s as [|c s IH]; simpl; [done|].
  destruct (Ascii.eqb c sep) eqn:E; simpl; [done|].
  pose proof (split_nonempty sep s) as Hne.
  destruct (PyStr.split sep s) as [|p ps]; [done|]. simpl in *.
  apply Forall_cons. split; [by apply Ascii.eqb_neq|done].
Qed.

(** X13.  The address that [_get_client_ip] takes from a non-empty
    x-forwarded-for header never contains a comma and has no whitespace
    at either end (trimming it again changes nothing); it may be empty. *)
Theorem forwarded_address_is_clean (headers : gmap string string)
    (client : option Address) (forwarded : string) :
  headers !! "x-forwarded-for" = Some forwarded ->
  forwarded ≠ "" ->
  Forall (λ c, c ≠ ","%char) (list_ascii_of_string (_get_client_ip headers client))
  ∧ PyStr.strip (_get_client_ip headers client) = _get_client_ip headers client
  ∧ (∀ rest, forwarded = String "," rest -> _get_client_ip headers client = "").
Proof.
  intros Hf Hne. rewrite (get_client_ip_forwarded _ _ _ Hf Hne).
  split; [apply strip_Forall, split_head_no_sep|].
  split; [apply strip_idemp|]. by intros rest ->.
Qed.

Lemma forwarded_address_is_clean_witness :
  PyStr.strip (_get_client_ip {[ "x-forwarded-for" := " 10.0.0.7 , 10.0.0.1" ]} None)
  = _get_client_ip {[ "x-forwarded-for" := " 10.0.0.7 , 10.0.0.1" ]} None.
Proof.
  refine (proj1 (proj2
    (forwarded_address_is_clean {[ "x-forwarded-for" := " 10.0.0.7 , 10.0.0.1" ]}
       None " 10.0.0.7 , 10.0.0.1" _ _))).
  - apply lookup_singleton_eq.
  - done.
Defined.

(** X14.  Joining the parts of a split with the separator gives back the
    string that was split. *)
Theorem join_split (sep : ascii) (s : string) :
  PyStr.join (String sep "") (PyStr.split sep s) = s.
Proof.
  induction s as [|c s IH]; [done|]. simpl.
  pose proof (split_nonempty sep s) as Hne.
  destruct (Ascii.eqb c sep) eqn:E.
  - apply Ascii.eqb_eq in E as ->.
    destruct (PyStr.split sep s) as [|p ps]; [done|].
    cbn [PyStr.join]. cbn [PyStr.join] in IH. by rewrite IH.
  - destruct (PyStr.split sep s) as [|p ps]; [done|].
    destruct ps as [|q qs]; cbn [PyStr.join] in *.
    + by rewrite IH.
    + rewrite string_app_cons. by rewrite IH.
Qed.

(** The code point that two bytes of the encoding stand for. *)
Lemma encode_char_inverse c :
  let n := Z.of_N (N_of_ascii c) in
  (Z.land (Z.lor 192 (Z.shiftr n 6)) 31 * 64 + Z.land (Z.lor 128 (Z.land n 63)) 63
   = n)%Z
  ∧ (128 <= n -> 192 <= Z.lor 192 (Z.shiftr n 6))%Z.
Proof. destruct c as [[] [] [] [] [] [] [] []]; by vm_compute. Qed.

Lemma ascii_of_code_inj c1 c2 :
  Z.of_N (N_of_ascii c1) = Z.of_N (N_of_ascii c2) -> c1 = c2.
Proof.
  intros H. apply N2Z.inj in H.
  by rewrite <- (ascii_N_embedding c1), <- (ascii_N_embedding c2), H.
Qed.

(** X15.  The encoding of the composite is injective: two different
    strings are never encoded to the same bytes, so two composites
    receive the same key only when they are equal or their digests share
    the first 128 bits. *)
Theorem encode_injective (s1 s2 : string) :
  PyStr.encode s1 = PyStr.encode s2 -> s1 = s2.
Proof.
  revert s2. induction s1 as [|c1 s1 IH]; intros [|c2 s2] H; simpl in H.
  - done.
  - by destruct (_ <? 128)%Z.
  - by destruct (_ <? 128)%Z.
  - destruct (encode_char_inverse c1) as [E1 B1].
    destruct (encode_char_inverse c2) as [E2 B2]. cbv zeta in *.
    revert H.
    destruct (Z.ltb_spec (Z.of_N (N_of_ascii c1)) 128) as [L1|L1],
             (Z.ltb_spec (Z.of_N (N_of_ascii c2)) 128) as [L2|L2];
      intros H.
    + injection H as H0 H. f_equal; [by apply ascii_of_code_inj|by apply IH].
    + injection H as H0 H. specialize (B2 L2). lia.
    + injection H as H0 H. specialize (B1 L1). lia.
    + injection H as H0 H1 H. f_equal; [|by apply IH].
      apply ascii_of_code_inj. rewrite <- E1, <- E2. by rewrite H0, H1.
Qed.

Lemma encode_injective_witness :
  "1.2.3.4|curl" = "1.2.3.4|curl".
Proof. apply encode_injective. reflexivity. Defined.

(** ** Independence of the two limiters and of the devices *)

Lemma check_http_rate_limit_with_step capacity self d now :
  check_http_rate_limit_with capacity self d now
  = (set_http_requests
       (<[d := (window_step capacity now (default [] (_http_requests self !! d))).1]>
          (_http_requests self)) self,
     (window_step capacity now (default [] (_http_requests self !! d))).2).
Proof.
  rewrite check_http_rate_limit_with_eq. unfold window_step. cbv zeta.
  by destruct (_ >=? _)%Z.
Qed.

(** X16.  The session registry and the request windows never touch each
    other: registering, releasing and sweeping leave every stored request
    timestamp as it is, and a rate-limit check leaves the registry and
    [max_sessions] as they are.  So a check never changes what
    [can_create_session] answers, and a registration never changes what
    the next check answers. *)
Theorem registry_and_windows_independent (self : DeviceRateLimiter) :
  (∀ d s u tc ta,
      _http_requests (register_session self d s u tc ta).1 = _http_requests self)
  ∧ (∀ d s, _http_requests (unregister_session self d s).1 = _http_requests self)
  ∧ (∀ idle now self' cleaned,
      cleanup_stale_sessions self idle now = Some (self', cleaned) ->
      _http_requests self' = _http_requests self)
  ∧ (∀ d now,
      _active_sessions (check_http_rate_limit self d now).1 = _active_sessions self
      ∧ max_sessions (check_http_rate_limit self d now).1 = max_sessions self)
  ∧ (∀ d now d',
      can_create_session (check_http_rate_limit self d now).1 d'
      = can_create_session self d')
  ∧ (∀ d s u tc ta d' now,
      (check_http_rate_limit (register_session self d s u tc ta).1 d' now).2
      = (check_http_rate_limit self d' now).2).
Proof.
  assert (∀ d s u tc ta,
      _http_requests (register_session self d s u tc ta).1 = _http_requests self)
    as Hreg.
  { intros d s u tc ta.
    apply (exec_http_requests self (RegisterSession d s u tc ta)). done. }
  split; [exact Hreg|]. split.
  { intros d s. apply (exec_http_requests self (UnregisterSession d s)). done. }
  split.
  { intros idle now self' cleaned H.
    apply (exec_http_requests self (CleanupStaleSessions idle now)).
    simpl. by rewrite H. }
  split; [intros d now; apply check_http_rate_limit_with_registry|].
  split.
  - intros d now d'. unfold can_create_session, get_active_session_count.
    unfold check_http_rate_limit.
    by destruct (check_http_rate_limit_with_registry
                   MAX_HTTP_REQUESTS_PER_MINUTE self d now) as [-> ->].
  - intros d s u tc ta d' now. unfold check_http_rate_limit.
    rewrite !check_http_rate_limit_with_step. simpl. by rewrite Hreg.
Qed.

Lemma registry_and_windows_independent_witness :
  ∃ self' cleaned,
    cleanup_stale_sessions (check_http_rate_limit (init 8) "dev" 0).1 10 99000000
    = Some (self', cleaned)
    ∧ _http_requests self' = _http_requests (check_http_rate_limit (init 8) "dev" 0).1.
Proof.
  destruct (cleanup_stale_sessions (check_http_rate_limit (init 8) "dev" 0).1
              10 99000000) as [[self' cleaned]|] eqn:E; [|by vm_compute in E].
  exists self', cleaned. split; [done|].
  exact (proj1 (proj2 (proj2
    (registry_and_windows_independent (check_http_rate_limit (init 8) "dev" 0).1)))
    10%Z 99000000%Z self' cleaned E).
Defined.

(** X17.  The request windows of different devices are independent: a
    check for one device never changes the answer of a check for another
    device, and two checks for different devices give the same final
    state in either order. *)
Theorem request_windows_isolated (capacity : Z) (self : DeviceRateLimiter)
    (d1 d2 : string) (t1 t2 : Q) :
  d1 ≠ d2 ->
  (check_http_rate_limit_with capacity
     (check_http_rate_limit_with capacity self d1 t1).1 d2 t2).2
  = (check_http_rate_limit_with capacity self d2 t2).2
  ∧ (check_http_rate_limit_with capacity
       (check_http_rate_limit_with capacity self d1 t1).1 d2 t2).1
    = (check_http_rate_limit_with capacity
         (check_http_rate_limit_with capacity self d2 t2).1 d1 t1).1
  ∧ _http_requests (check_http_rate_limit_with capacity self d1 t1).1 !! d2
    = _http_requests self !! d2.
Proof.
  intros Hne. rewrite !check_http_rate_limit_with_step. simpl.
  rewrite !lookup_insert_ne by done. split; [done|]. split; [|done].
  unfold set_http_requests. simpl. f_equal. by apply insert_insert_ne.
Qed.

Lemma request_windows_isolated_witness :
  (check_http_rate_limit_with 1 (check_http_rate_limit_with 1 (init 8) "a" 0).1 "b" 1).2
  = (check_http_rate_limit_with 1 (init 8) "b" 1).2.
Proof.
  apply (proj1 (request_windows_isolated 1 (init 8) "a" "b" 0 1 ltac:(done))).
Defined.

(** X18.  Registering or releasing a session of one device leaves the
    entry of every other device as it is: its records, its count and the
    answer of [can_create_session] for it do not change. *)
Theorem registry_devices_isolated (self : DeviceRateLimiter) (d d' : string) :
  d' ≠ d ->
  (∀ s u tc ta,
      _active_sessions (register_session self d s u tc ta).1 !! d'
      = _active_sessions self !! d'
      ∧ can_create_session (register_session self d s u tc ta).1 d'
        = can_create_session self d')
  ∧ (∀ s,
      _active_sessions (unregister_session self d s).1 !! d'
      = _active_sessions self !! d'
      ∧ can_create_session (unregister_session self d s).1 d'
        = can_create_session self d').
Proof.
  intros Hne. split.
  - intros s u tc ta.
    assert (_active_sessions (register_session self d s u tc ta).1 !! d'
            = _active_sessions self !! d') as Hentry.
    { destruct (can_create_session self d) eqn:Hc.
      - rewrite register_session_accepted by done. simpl.
        by rewrite lookup_insert_ne.
      - by rewrite register_session_rejected. }
    split; [done|]. unfold can_create_session, get_active_session_count.
    rewrite Hentry.
    by rewrite (exec_max_sessions self (RegisterSession d s u tc ta)).
  - intros s.
    assert (_active_sessions (unregister_session self d s).1 !! d'
            = _active_sessions self !! d') as Hentry.
    { destruct (lookup_session self d s) as [r|] eqn:Hr.
      - destruct (unregister_session_present _ _ _ _ Hr) as (v & Hd & Hs & ->).
        simpl. destruct (_ =? _)%nat.
        + by rewrite lookup_delete_ne.
        + by rewrite lookup_insert_ne.
      - by rewrite unregister_session_absent. }
    split; [done|]. unfold can_create_session, get_active_session_count.
    rewrite Hentry.
    by rewrite (exec_max_sessions self (UnregisterSession d s)).
Qed.

Lemma registry_devices_isolated_witness :
  can_create_session (register_session (init 1) "a" "s" "u" 0 0).1 "b"
  = can_create_session (init 1) "b".
Proof.
  apply (proj1 (registry_devices_isolated (init 1) "a" "b" ltac:(done))).
Defined.

(** X19.  In every reachable state a device counts 0 sessions exactly
    when it has no entry in the registry, which is exactly when none of
    its sessions is stored: a device never lingers with an empty entry
    and an unknown device counts 0. *)
Theorem count_zero_iff_absent (cap : Z) (self : DeviceRateLimiter) (d : string) :
  reachable cap self ->
  (get_active_session_count self d = 0%nat <-> _active_sessions self !! d = None)
  ∧ (get_active_session_count self d = 0%nat <-> ∀ s, lookup_session self d s = None).
Proof.
  intros Hreach. pose proof (reachable_no_empty_entries _ _ Hreach d) as Hne.
  unfold get_active_session_count, lookup_session.
  destruct (_active_sessions self !! d) as [v|]; simpl.
  - assert (size v ≠ 0)%nat as Hsz.
    { apply map_size_non_empty_iff. by intros ->. }
    split; [split; [lia|done]|]. split; [lia|].
    intros Hnone. exfalso. apply Hsz. apply map_size_empty_iff.
    apply map_eq. intros s. by rewrite Hnone, lookup_empty.
  - rewrite map_size_empty. done.
Qed.

Lemma count_zero_iff_absent_witness :
  get_active_session_count
    (unregister_session (register_session (init 8) "dev" "s" "u" 0 0).1 "dev" "s").1
    "dev" = 0%nat
  <-> _active_sessions
        (unregister_session (register_session (init 8) "dev" "s" "u" 0 0).1 "dev" "s").1
      !! "dev" = None.
Proof.
  apply (count_zero_iff_absent 8).
  by exists [RegisterSession "dev" "s" "u" 0 0; UnregisterSession "dev" "s"].
Defined.
